(** * Host agent of the multi-tenant CPU arbitration control plane

    A shallow embedding of [host_agent/main.go]: the TCP command handler
    ([processClient] and the functions it dispatches to), the HTTP weights
    endpoint ([listenForReqsFromLB]) and the pieces of the Go library the
    handlers rely on ([strings.Split], [strings.Trim], [strconv.ParseInt],
    the [int64]/[float64] conversions, [fmt.Sprintf] with [%d] and [%f],
    and the [http.ResponseWriter] contract).

    Go strings are byte strings and are modelled by [string]; a Go
    [map[string]T] is a [gmap string T]; [int64] is [Z] with the
    wrap-around written out; [float64] is the IEEE 754 binary64 format as
    specified by [SpecFloat]. *)

From Stdlib Require Import ZArith Lia Ascii String DecimalString.
From Stdlib Require Import SpecFloat DecimalPos.
From stdpp Require Import prelude strings gmap.

Local Open Scope string_scope.
Local Open Scope Z_scope.

(** ** The [strings] package *)

Module strings.

(** [strings.Split(s, sep)] for a one-byte separator, the only way the
    agent calls it ([" "] and [":"]).  The result is never empty:
    splitting the empty string gives one empty field. *)
Fixpoint Split (s : string) (sep : ascii) : list string :=
  match s with
  | EmptyString => [EmptyString]
  | String c s' =>
      if Ascii.eqb c sep then EmptyString :: Split s' sep
      else match Split s' sep with
           | f :: fs => String c f :: fs
           | [] => [String c EmptyString]
           end
  end.

(** Membership of a byte in a cutset. *)
Fixpoint inCutset (c : ascii) (cutset : string) : bool :=
  match cutset with
  | EmptyString => false
  | String d k => Ascii.eqb c d || inCutset c k
  end.

Fixpoint TrimLeft (s cutset : string) : string :=
  match s with
  | EmptyString => EmptyString
  | String c s' => if inCutset c cutset then TrimLeft s' cutset else s
  end.

(** Drops the trailing bytes of the cutset: a byte is kept when it is
    not in the cutset or when something is kept after it. *)
Fixpoint TrimRight (s cutset : string) : string :=
  match s with
  | EmptyString => EmptyString
  | String c s' =>
      match TrimRight s' cutset with
      | EmptyString => if inCutset c cutset then EmptyString else String c EmptyString
      | r => String c r
      end
  end.

(** [strings.Trim(s, cutset)]. *)
Definition Trim (s cutset : string) : string :=
  TrimRight (TrimLeft s cutset) cutset.

End strings.

(** ** Machine integers *)

Definition int64_min : Z := - 2 ^ 63.
Definition int64_max : Z := 2 ^ 63 - 1.

Definition in_int64 (z : Z) : bool := (int64_min <=? z) && (z <=? int64_max).

(** Two's complement wrap-around of an [int64] result. *)
Definition wrap64 (z : Z) : Z := (z + 2 ^ 63) mod 2 ^ 64 - 2 ^ 63.

(** ** The [strconv] and [fmt] packages *)

Module strconv.

Definition digit_of (c : ascii) : option Z :=
  let n := Z.of_N (N_of_ascii c) in
  if (48 <=? n) && (n <=? 57) then Some (n - 48) else None.

(** The value of a non-empty run of decimal digits; [None] on any other
    byte (base 10 accepts no underscore) and on the empty string. *)
Fixpoint digits_from (acc : Z) (s : string) : option Z :=
  match s with
  | EmptyString => Some acc
  | String c s' =>
      match digit_of c with
      | Some d => digits_from (10 * acc + d) s'
      | None => None
      end
  end.

Definition digits (s : string) : option Z :=
  match s with
  | EmptyString => None
  | _ => digits_from 0 s
  end.

(** [strconv.ParseInt(s, 10, 64)]: an optional sign, then digits; a
    syntax error or a value outside [int64] is [None] (the agent only
    tests [err != nil]). *)
Definition ParseInt (s : string) : option Z :=
  match s with
  | EmptyString => None
  | String c s' =>
      let '(neg, body) :=
        if Ascii.eqb c "+" then (false, s')
        else if Ascii.eqb c "-" then (true, s')
        else (false, s) in
      match digits body with
      | None => None
      | Some un =>
          if negb neg && (2 ^ 63 <=? un) then None
          else if neg && (2 ^ 63 <? un) then None
          else Some (if neg then - un else un)
      end
  end.

End strconv.

Module fmt.

(** [fmt.Sprintf("%d", z)]. *)
Definition Sprintf_d (z : Z) : string := NilZero.string_of_int (Z.to_int z).

End fmt.

(** ** [float64] *)

Module float64.

Definition prec : Z := 53.
Definition emax : Z := 1024.

(** The conversion [float64(z)] of an integer: the nearest binary64
    value, ties to even. *)
Definition of_int (z : Z) : spec_float := binary_normalize prec emax z 0 false.

Definition div (x y : spec_float) : spec_float := SFdiv prec emax x y.
Definition mul (x y : spec_float) : spec_float := SFmul prec emax x y.

(** The sign bit. *)
Definition signbit (f : spec_float) : bool :=
  match f with
  | S754_zero s | S754_infinity s | S754_finite s _ _ => s
  | S754_nan => false
  end.

Definition is_finite (f : spec_float) : bool :=
  match f with
  | S754_zero _ | S754_finite _ _ _ => true
  | _ => false
  end.

(** A finite value [m * 2^e] cut to an integer, rounding toward zero. *)
Definition trunc (f : spec_float) : Z :=
  match f with
  | S754_finite s m e =>
      let mag := if 0 <=? e then Z.pos m * 2 ^ e else Z.pos m / 2 ^ (- e) in
      if s then - mag else mag
  | _ => 0
  end.

(** The mathematical floor of a finite value (rounding toward minus
    infinity). *)
Definition floor (f : spec_float) : Z :=
  match f with
  | S754_finite s m e =>
      let n := if s then Z.neg m else Z.pos m in
      if 0 <=? e then n * 2 ^ e else n / 2 ^ (- e)
  | _ => 0
  end.

(** The conversion [int64(f)]: the fraction is discarded (truncation
    toward zero).  When the value does not fit, Go leaves the result to
    the implementation; the agent is built for linux/amd64, where the
    conversion instruction then yields the smallest [int64]. *)
Definition to_int64 (f : spec_float) : Z :=
  match f with
  | S754_zero _ => 0
  | S754_finite _ _ _ => if in_int64 (trunc f) then trunc f else int64_min
  | S754_infinity _ | S754_nan => int64_min
  end.

End float64.

Module fmt_f.

Fixpoint zeros (n : nat) : string :=
  match n with
  | O => EmptyString
  | S n' => String "0" (zeros n')
  end.

(** A digit string padded with zeros on the left to [width] bytes. *)
Definition pad_left (width : nat) (s : string) : string :=
  zeros (width - String.length s) ++ s.

Definition unsigned_decimal (z : Z) : string := NilZero.string_of_uint (N.to_uint (Z.to_N z)).

(** The magnitude [m * 2^e] scaled by [10^6] and rounded to the nearest
    integer, ties to even: the digits [%f] prints at its default
    precision 6. *)
Definition scaled6 (m : positive) (e : Z) : Z :=
  if 0 <=? e then Z.pos m * 2 ^ e * 10 ^ 6
  else
    let num := Z.pos m * 10 ^ 6 in
    let den := 2 ^ (- e) in
    let q := num / den in
    let r := num mod den in
    if (den <? 2 * r) || ((den =? 2 * r) && Z.odd q) then q + 1 else q.

Definition fixed6 (q : Z) : string :=
  unsigned_decimal (q / 10 ^ 6) ++ "." ++ pad_left 6 (unsigned_decimal (q mod 10 ^ 6)).

(** [fmt.Sprintf("%f", f)]. *)
Definition Sprintf_f (f : spec_float) : string :=
  match f with
  | S754_nan => "NaN"
  | S754_infinity false => "+Inf"
  | S754_infinity true => "-Inf"
  | S754_zero false => "0.000000"
  | S754_zero true => "-0.000000"
  | S754_finite s m e => (if s then "-" else "") ++ fixed6 (scaled6 m e)
  end.

End fmt_f.

(** ** The world outside the agent

    What the handlers observe of the node while one command runs: the order
    in which the Go runtime walks a map, the exit status of the privileged
    write helper, the output of [cat] on a cgroup file and the wall clock. *)

Record World := {
  (** The entries of a map in the order the [n]-th [range] statement of the
      running command yields them. *)
  range_order : nat → gmap string string → list (string * string);
  (** [bash ./writetofile.sh value file]: [true] when the command exits
      with status 0 ([err == nil]). *)
  writetofile : string → string → bool;
  (** [cat path] during capture [k] (0 before the sleep, 1 after): the
      output and whether the command succeeded. *)
  cat : nat → string → string * bool;
  (** [time.Now().UnixNano()] at the end of capture [k]. *)
  now : nat → Z
}.

(** Go yields every entry of a map exactly once, in no specified order. *)
Definition range_complete (w : World) : Prop :=
  ∀ n m, range_order w n m ≡ₚ map_to_list m.

(** One run of the write helper, with its outcome. *)
Record Exec := {
  exec_value : string;
  exec_file : string;
  exec_ok : bool
}.

Definition newline : string := String "010" EmptyString.

Definition kubepods : string := "/host/sys/fs/cgroup/cpu/kubepods/".

(** The [map[string]string] index expression [m[k]]: the zero value [""]
    when the key is absent. *)
Definition index (m : gmap string string) (k : string) : string :=
  default EmptyString (m !! k).

(** The [map[string]int64] index expression. *)
Definition index64 (m : gmap string Z) (k : string) : Z :=
  default 0 (m !! k).

(** ** The command handlers *)

Section Handlers.

(** [strconv.ParseFloat(s, 64)]; [None] stands for [err != nil]. *)
Variable ParseFloat : string → option spec_float.

(** The loop of [getNewPods] over the pairs that follow the command word. *)
Fixpoint getNewPods_loop (podUIDs : gmap string string) (podStrs : list string)
  : gmap string string * bool :=
  match podStrs with
  | [] => (podUIDs, true)
  | podStr :: rest =>
      match strings.Split podStr ":" with
      | [podName; podUID] => getNewPods_loop (<[podName := podUID]> podUIDs) rest
      | _ => (podUIDs, false)
      end
  end.

Definition getNewPods (msg : string) : gmap string string * bool :=
  getNewPods_loop ∅ (tail (strings.Split msg " ")).

(** The loop of [parsePodShares]. *)
Fixpoint parsePodShares_loop (podShares : gmap string string) (podStrs : list string)
  : gmap string string * bool :=
  match podStrs with
  | [] => (podShares, true)
  | podStr :: rest =>
      match strings.Split podStr ":" with
      | [podName; text] =>
          match ParseFloat text with
          | None => (podShares, false)
          | Some share =>
              parsePodShares_loop
                (<[podName := fmt.Sprintf_d (float64.to_int64 share)]> podShares) rest
          end
      | _ => (podShares, false)
      end
  end.

Definition parsePodShares (msg : string) : gmap string string * bool :=
  parsePodShares_loop ∅ (tail (strings.Split msg " ")).

(** The write loop shared, up to the file name, by [applyCPUShares] and
    [applyCPUQuotas]: one helper run per entry, stopping at the first
    run that fails.  The result is the loop's verdict and the helper
    runs it made, in order. *)
Fixpoint write_loop (w : World) (podUIDs : gmap string string) (file : string)
    (entries : list (string * string)) : bool * list Exec :=
  match entries with
  | [] => (true, [])
  | (podName, share) :: rest =>
      let fileName := kubepods ++ index podUIDs podName ++ file in
      if writetofile w share fileName then
        let '(ok, runs) := write_loop w podUIDs file rest in
        (ok, {| exec_value := share; exec_file := fileName; exec_ok := true |} :: runs)
      else
        (false, [{| exec_value := share; exec_file := fileName; exec_ok := false |}])
  end.

Definition applyCPUQuotas (w : World) (podUIDs : gmap string string) (msg : string)
  : bool * list Exec :=
  let '(podQuotas, ok) := parsePodShares msg in
  if negb ok then (false, [])
  else write_loop w podUIDs "/cpu.cfs_quota_us" (range_order w 0 podQuotas).

Definition applyCPUShares (w : World) (podUIDs : gmap string string) (msg : string)
  : bool * list Exec :=
  let '(podShares, ok) := parsePodShares msg in
  if negb ok then (false, [])
  else write_loop w podUIDs "/cpu.shares" (range_order w 0 podShares).

(** [updateLBWeights] stores the message it was handed and reports
    success; the result is the new value of the shared weights. *)
Definition updateLBWeights (podUIDs : gmap string string) (msg : string)
    (lbWeights : string) : bool * string :=
  (true, msg).

Definition getOSFile (w : World) (k : nat) (readPath : string) : string * bool :=
  cat w k readPath.

Definition getPodCPUUtil (w : World) (k : nat) (uid : string) : Z :=
  let fileName := kubepods ++ uid ++ "/cpuacct.usage" in
  let '(cpuUtil, ok) := getOSFile w k fileName in
  if negb ok then -1
  else
    let cpuUtilStr := strings.Trim cpuUtil newline in
    match strconv.ParseInt cpuUtilStr with
    | None => -1
    | Some cpuUtilInt64 => cpuUtilInt64
    end.

(** One capture: the usage of every pod, by pod name. *)
Definition capture (w : World) (k : nat) (entries : list (string * string)) : gmap string Z :=
  foldl (λ utils '(podName, uid), <[podName := getPodCPUUtil w k uid]> utils) ∅ entries.

(** The percentage reported for one pod. *)
Definition percentage (initial final timeElapsed : Z) : spec_float :=
  float64.mul
    (float64.div (float64.of_int (wrap64 (final - initial))) (float64.of_int timeElapsed))
    (float64.of_int 100).

Definition getCPUUtilizations (w : World) (podUIDs : gmap string string) : string :=
  let initialCPUUtils := capture w 0 (range_order w 0 podUIDs) in
  let intialTime := now w 0 in
  let finalCPUUtils := capture w 1 (range_order w 1 podUIDs) in
  let timeElapsed := wrap64 (now w 1 - intialTime) in
  foldl (λ response '(podName, _),
           response ++ " " ++ podName ++ ":" ++
           fmt_f.Sprintf_f (percentage (index64 initialCPUUtils podName)
                                       (index64 finalCPUUtils podName) timeElapsed))
        "utils:" (range_order w 2 podUIDs).

Definition sendSuccessOrFailResponse (ok : bool) : string :=
  if ok then "Success" else "Failure".

(** What one turn of the loop of [processClient] does with a message it
    has read: the session map, the shared weights, the helper runs and
    the response it then sends. *)
Record Outcome := {
  out_podUIDs : gmap string string;
  out_weights : string;
  out_execs : list Exec;
  out_response : string
}.

Definition msgTypeOf (msgFromCC : string) : string :=
  hd EmptyString (strings.Split msgFromCC " ").

Definition dispatch (w : World) (podUIDs : gmap string string) (lbWeights : string)
    (msgFromCC : string) : Outcome :=
  let msgType := msgTypeOf msgFromCC in
  if String.eqb msgType "updatePods" then
    let '(newPodUIDs, ok) := getNewPods msgFromCC in
    {| out_podUIDs := if ok then newPodUIDs else podUIDs;
       out_weights := lbWeights; out_execs := [];
       out_response := sendSuccessOrFailResponse ok |}
  else if String.eqb msgType "applyLBWeights" then
    let '(ok, weights) := updateLBWeights podUIDs msgFromCC lbWeights in
    {| out_podUIDs := podUIDs; out_weights := weights; out_execs := [];
       out_response := sendSuccessOrFailResponse ok |}
  else if String.eqb msgType "applyCPUShares" then
    let '(ok, runs) := applyCPUShares w podUIDs msgFromCC in
    {| out_podUIDs := podUIDs; out_weights := lbWeights; out_execs := runs;
       out_response := sendSuccessOrFailResponse ok |}
  else if String.eqb msgType "applyCPUQuotas" then
    let '(ok, runs) := applyCPUQuotas w podUIDs msgFromCC in
    {| out_podUIDs := podUIDs; out_weights := lbWeights; out_execs := runs;
       out_response := sendSuccessOrFailResponse ok |}
  else if String.eqb msgType "getCPUUtilizations" then
    {| out_podUIDs := podUIDs; out_weights := lbWeights; out_execs := [];
       out_response := getCPUUtilizations w podUIDs |}
  else
    {| out_podUIDs := podUIDs; out_weights := lbWeights; out_execs := [];
       out_response := "Unknown message type" |}.

End Handlers.

(** ** The HTTP weights endpoint *)

Module http.

Definition StatusOK : Z := 200.
Definition StatusMovedPermanently : Z := 301.
Definition StatusInternalServerError : Z := 500.

(** What the handler sees of a request: method, path and the result of
    [io.ReadAll(r.Body)] (the bytes and whether the read succeeded). *)
Record Request := {
  Method : string;
  Path : string;
  Body : string * bool
}.

(** The state behind an [http.ResponseWriter].  The first [WriteHeader]
    (or the first [Write]) fixes the status line and takes the header map
    as it stands, [frozenHeader]: that is all the response gets from the
    handler's map, changes made to the map afterwards are lost, and a
    second [WriteHeader] is ignored.  The header that goes on the wire is
    not modelled: net/http composes it from [frozenHeader] and headers of
    its own ([Date], [Content-Length], a [Connection: close] when it is
    about to close the connection, as it does after a request body that
    could not be read). *)
Record ResponseWriter := {
  method : string;
  wroteHeader : bool;
  status : Z;
  header : gmap string string;
  frozenHeader : gmap string string;
  body : string
}.

Definition newResponse (r : Request) : ResponseWriter :=
  {| method := Method r; wroteHeader := false; status := 0;
     header := ∅; frozenHeader := ∅; body := EmptyString |}.

Definition WriteHeader (code : Z) (w : ResponseWriter) : ResponseWriter :=
  if wroteHeader w then w
  else {| method := method w; wroteHeader := true; status := code;
          header := header w; frozenHeader := header w; body := body w |}.

(** [w.Header().Set(key, value)]. *)
Definition HeaderSet (key value : string) (w : ResponseWriter) : ResponseWriter :=
  {| method := method w; wroteHeader := wroteHeader w; status := status w;
     header := <[key := value]> (header w); frozenHeader := frozenHeader w;
     body := body w |}.

(** [w.Write]: an implicit [WriteHeader(StatusOK)] when none was made,
    then the bytes; the server drops the bytes of a reply to [HEAD]. *)
Definition Write (data : string) (w : ResponseWriter) : ResponseWriter :=
  let w := WriteHeader StatusOK w in
  if String.eqb (method w) "HEAD" then w
  else {| method := method w; wroteHeader := wroteHeader w; status := status w;
          header := header w; frozenHeader := frozenHeader w;
          body := body w ++ data |}.

(** [http.Error(w, error, code)]. *)
Definition Error (error : string) (code : Z) (w : ResponseWriter) : ResponseWriter :=
  let w := HeaderSet "Content-Type" "text/plain; charset=utf-8" w in
  let w := HeaderSet "X-Content-Type-Options" "nosniff" w in
  let w := WriteHeader code w in
  Write (error ++ newline) w.

(** What [DefaultServeMux] does with a request when ["/"] is its only
    pattern: it hands the request to the handler of ["/"], or it answers
    the request by itself with some status and the handler is not called
    (a request whose path is not clean is redirected to the cleaned
    path). *)
Inductive Routing :=
| ToHandler
| ByMux (status : Z).

(** What became of a request: the handler's response, or the status the
    mux answered with. *)
Inductive Answer :=
| Handled (w : ResponseWriter)
| MuxOnly (status : Z).

End http.

(** The handler that [listenForReqsFromLB] registers for every path, on one
    request; its argument [lbWeights] is the value read under the mutex. *)
Definition listenForReqsFromLB (lbWeights : string) (r : http.Request)
  : http.ResponseWriter :=
  let w := http.newResponse r in
  let w := http.WriteHeader http.StatusOK w in
  let w := http.HeaderSet "Connection" "close" w in
  let currLBWeights := lbWeights in
  let '(_, ok) := http.Body r in
  if negb ok then
    http.Error "Error reading request body" http.StatusInternalServerError w
  else
    http.Write currLBWeights w.

(** ** One connection of the command channel *)

(** The outcome of one [readMsgFromConnection]: a message, together with
    the world its command then runs in, or an error. *)
Inductive ReadResult :=
| ReadMsg (msgFromCC : string) (w : World)
| ReadError.

Record Session := {
  podUIDs : gmap string string;
  weights : string;            (* the shared LB weights *)
  execs : list Exec;            (* helper runs so far *)
  sent : list string;           (* responses handed to the connection *)
  closed : bool                 (* the loop has left and the connection is closed *)
}.

Definition newSession (lbWeights : string) : Session :=
  {| podUIDs := ∅; weights := lbWeights; execs := []; sent := []; closed := false |}.

Section Server.

Variable ParseFloat : string → option spec_float.

(** One turn of the loop on a message. *)
Definition turn (s : Session) (msgFromCC : string) (w : World) : Session :=
  let o := dispatch ParseFloat w (podUIDs s) (weights s) msgFromCC in
  {| podUIDs := out_podUIDs o; weights := out_weights o;
     execs := execs s ++ out_execs o; sent := sent s ++ [out_response o];
     closed := false |}.

(** [processClient] on the reads its connection delivers, while no other
    connection changes the weights.  When the reads run out the handler
    is blocked in the next read, with the connection open. *)
Fixpoint processClient_loop (reads : list ReadResult) (s : Session) : Session :=
  match reads with
  | [] => s
  | ReadError :: _ =>
      {| podUIDs := podUIDs s; weights := weights s; execs := execs s;
         sent := sent s; closed := true |}
  | ReadMsg msgFromCC w :: rest => processClient_loop rest (turn s msgFromCC w)
  end.

Definition processClient (reads : list ReadResult) (lbWeights : string) : Session :=
  processClient_loop reads (newSession lbWeights).

(** [http.ListenAndServe] with the nil handler serves through
    [DefaultServeMux]; how the mux routes is the library's matter. *)
Variable ServeMux : http.Request → http.Routing.

Definition serve (lbWeights : string) (r : http.Request) : http.Answer :=
  match ServeMux r with
  | http.ToHandler => http.Handled (listenForReqsFromLB lbWeights r)
  | http.ByMux status => http.MuxOnly status
  end.

(** *** The agent: every connection and the weights endpoint

    The handlers of the connections and of the HTTP requests run
    concurrently; they share the LB weights only, which they access
    under the mutex.  An execution of the agent is a sequence of the
    events below.  The handler of a connection reads a message in one
    event, carries out its command in a later one, and its response
    reaches the connection in a third; events of the other connections
    and requests to the weights endpoint may come in between.  Of what a
    command does only the store of the weights, made under the mutex, can
    be seen by others, so the command is carried out in one event. *)

Record Conn := {
  conn_podUIDs : gmap string string;
  conn_read : option string;      (* the message read, its command not yet run *)
  conn_pending : option string;   (* the response not yet sent *)
  conn_sent : list string;
  conn_closed : bool
}.

Record Agent := {
  lbWeights : string;
  conns : gmap nat Conn;
  helperRuns : list Exec;
  served : list http.Answer
}.

Inductive Event :=
| Accept (c : nat)
| Recv (c : nat) (msgFromCC : string)
| Run (c : nat) (msgFromCC : string) (w : World)
| Send (c : nat)
| ReadFail (c : nat)
| Get (r : http.Request).

Definition DEFAULT_LB_WEIGHTS : string := EmptyString.

Definition boot : Agent :=
  {| lbWeights := DEFAULT_LB_WEIGHTS; conns := ∅; helperRuns := []; served := [] |}.

Definition setConn (a : Agent) (c : nat) (k : Conn) : Agent :=
  {| lbWeights := lbWeights a; conns := <[c := k]> (conns a);
     helperRuns := helperRuns a; served := served a |}.

(** A handler reads only when it is not closed, has no message at hand
    and has sent its last response. *)
Definition idle (k : Conn) : bool :=
  negb (conn_closed k) &&
  match conn_read k with None => true | Some _ => false end &&
  match conn_pending k with None => true | Some _ => false end.

Definition step (a : Agent) (e : Event) : option Agent :=
  match e with
  | Accept c =>
      match conns a !! c with
      | Some _ => None
      | None =>
          Some (setConn a c {| conn_podUIDs := ∅; conn_read := None;
                               conn_pending := None; conn_sent := [];
                               conn_closed := false |})
      end
  | Recv c msgFromCC =>
      match conns a !! c with
      | Some k =>
          if idle k then
            Some (setConn a c {| conn_podUIDs := conn_podUIDs k;
                                 conn_read := Some msgFromCC;
                                 conn_pending := None; conn_sent := conn_sent k;
                                 conn_closed := false |})
          else None
      | None => None
      end
  | Run c msgFromCC w =>
      match conns a !! c with
      | Some k =>
          match conn_read k with
          | Some msgRead =>
              if negb (conn_closed k) && String.eqb msgRead msgFromCC then
                let o := dispatch ParseFloat w (conn_podUIDs k) (lbWeights a) msgFromCC in
                Some {| lbWeights := out_weights o;
                        conns := <[c := {| conn_podUIDs := out_podUIDs o;
                                           conn_read := None;
                                           conn_pending := Some (out_response o);
                                           conn_sent := conn_sent k;
                                           conn_closed := false |}]> (conns a);
                        helperRuns := helperRuns a ++ out_execs o;
                        served := served a |}
              else None
          | None => None
          end
      | None => None
      end
  | Send c =>
      match conns a !! c with
      | Some k =>
          match conn_pending k with
          | Some response =>
              if conn_closed k then None
              else Some (setConn a c {| conn_podUIDs := conn_podUIDs k;
                                        conn_read := conn_read k;
                                        conn_pending := None;
                                        conn_sent := conn_sent k ++ [response];
                                        conn_closed := false |})
          | None => None
          end
      | None => None
      end
  | ReadFail c =>
      match conns a !! c with
      | Some k =>
          if idle k then
            Some (setConn a c {| conn_podUIDs := conn_podUIDs k; conn_read := None;
                                 conn_pending := None; conn_sent := conn_sent k;
                                 conn_closed := true |})
          else None
      | None => None
      end
  | Get r =>
      Some {| lbWeights := lbWeights a; conns := conns a; helperRuns := helperRuns a;
              served := served a ++ [serve (lbWeights a) r] |}
  end.

Fixpoint run (a : Agent) (events : list Event) : option Agent :=
  match events with
  | [] => Some a
  | e :: rest =>
      match step a e with
      | Some a' => run a' rest
      | None => None
      end
  end.

(** The events that replace the shared weights. *)
Definition storesWeights (e : Event) : bool :=
  match e with
  | Run _ msgFromCC _ => String.eqb (msgTypeOf msgFromCC) "applyLBWeights"
  | _ => false
  end.

End Server.

(** ** Instances for running the model *)

(** [strconv.ParseFloat] on plain decimal literals: an optional sign,
    digits, an optional point and more digits, at least one digit in all.
    When the digits make a number below [2^52] with at most 22 of them
    after the point, the nearest binary64 value is the quotient of two
    exactly represented numbers, which is how strconv computes it too; a
    longer whole number (no point, below [2^1000]) is rounded to the
    nearest binary64 value, ties to even.  Every other literal (exponents,
    hexadecimal, infinities, longer fractions) is outside this instance,
    which answers [None] there; the model is run with it on plain literals
    only, and the theorems hold for every [ParseFloat]. *)
Definition ParseFloat_plain (s : string) : option spec_float :=
  let '(neg, rest) :=
    match s with
    | String "-" r => (true, r)
    | String "+" r => (false, r)
    | _ => (false, s)
    end in
  let parts :=
    match strings.Split rest "." with
    | [whole] => Some (whole, EmptyString, false)
    | [whole; frac] => Some (whole, frac, true)
    | _ => None
    end in
  match parts with
  | None => None
  | Some (whole, frac, point) =>
      match strconv.digits (whole ++ frac) with
      | None => None
      | Some mantissa =>
          let k := Z.of_nat (String.length frac) in
          if (mantissa <? 2 ^ 52) && (k <=? 22) then
            let f := float64.div (float64.of_int mantissa) (float64.of_int (10 ^ k)) in
            Some (if neg then SFopp f else f)
          else if negb point && (mantissa <? 2 ^ 1000) then
            let f := float64.of_int mantissa in
            Some (if neg then SFopp f else f)
          else None
      end
  end.

(** A quiet node: maps are walked in the order of [map_to_list], every
    helper run succeeds, every usage file reads 0 and the two captures are
    100 ms apart. *)
Definition quiet : World :=
  {| range_order := λ _ m, map_to_list m;
     writetofile := λ _ _, true;
     cat := λ _ _, ("0" ++ newline, true);
     now := λ k, Z.of_nat k * 100000000 |}.

(** The quiet node, except that the helper fails on one file. *)
Definition readonly (file : string) : World :=
  {| range_order := range_order quiet;
     writetofile := λ _ f, negb (String.eqb f file);
     cat := cat quiet;
     now := now quiet |}.

(** The quiet node with the given answers of [cat]. *)
Definition reading (answers : nat → string → string * bool) : World :=
  {| range_order := range_order quiet;
     writetofile := writetofile quiet;
     cat := answers;
     now := now quiet |}.

Definition anyRequest : http.Request :=
  {| http.Method := "GET"; http.Path := "/"; http.Body := (EmptyString, true) |}.

(** A request whose body cannot be read to its end. *)
Definition brokenRequest : http.Request :=
  {| http.Method := "POST"; http.Path := "/"; http.Body := (EmptyString, false) |}.

(** A request made with [HEAD]. *)
Definition headRequest : http.Request :=
  {| http.Method := "HEAD"; http.Path := "/"; http.Body := (EmptyString, true) |}.

(** A request whose path has a doubled slash. *)
Definition doubledSlashRequest : http.Request :=
  {| http.Method := "GET"; http.Path := "//weights"; http.Body := (EmptyString, true) |}.

Fixpoint doubledSlash (p : string) : bool :=
  match p with
  | String "/" (String "/" _) => true
  | String _ rest => doubledSlash rest
  | EmptyString => false
  end.

(** [DefaultServeMux] on the requests, [CONNECT] apart, whose path starts
    with a slash and has no segment [.] or [..]: such a path is clean
    exactly when no slash in it is doubled, and a request with a path that
    is not clean is redirected with status 301.  The model is run with
    this instance on such requests only, and the theorems hold for every
    mux. *)
Definition ServeMux_plain (r : http.Request) : http.Routing :=
  if doubledSlash (http.Path r) then http.ByMux http.StatusMovedPermanently
  else http.ToHandler.

(** The agent after it has accepted one connection. *)
Definition oneClient : Agent :=
  {| lbWeights := DEFAULT_LB_WEIGHTS;
     conns := {[ 0%nat := {| conn_podUIDs := ∅; conn_read := None;
                             conn_pending := None; conn_sent := [];
                             conn_closed := false |} ]};
     helperRuns := []; served := [] |}.

(** The agent with one connection that has read a message. *)
Definition oneClientRead (msgFromCC : string) : Agent :=
  {| lbWeights := DEFAULT_LB_WEIGHTS;
     conns := {[ 0%nat := {| conn_podUIDs := ∅; conn_read := Some msgFromCC;
                             conn_pending := None; conn_sent := [];
                             conn_closed := false |} ]};
     helperRuns := []; served := [] |}.

(** The agent with one connection, holding weights. *)
Definition holding (lbWeights : string) : Agent :=
  {| lbWeights := lbWeights; conns := conns oneClient;
     helperRuns := []; served := [] |}.

(** A session that knows two pods. *)
Definition twoPods : gmap string string := {[ "a" := "ua"; "b" := "ub" ]}.

(** Two captures on a node where pod [a] burns 40 ms of CPU between them
    and the usage file of pod [b] cannot be read the second time. *)
Definition secondReadFails (k : nat) (path : string) : string * bool :=
  if String.eqb path (kubepods ++ "ua/cpuacct.usage") then
    match k with
    | O => ("1000000" ++ newline, true)
    | _ => ("41000000" ++ newline, true)
    end
  else
    match k with
    | O => ("5000" ++ newline, true)
    | _ => (EmptyString, false)
    end.

(** Two captures of which the second finds the usage file empty. *)
Definition secondReadEmpty (k : nat) (path : string) : string * bool :=
  match k with
  | O => ("2000000" ++ newline, true)
  | _ => (EmptyString, true)
  end.

(** ** Vocabulary of the statements *)

(** The entries of a command: what follows the command word, cut at the
    spaces. *)
Definition payload (msg : string) : list string :=
  tail (strings.Split msg " ").

(** An entry that splits into exactly two fields on [":"]. *)
Definition twoFields (entry : string) : Prop :=
  length (strings.Split entry ":") = 2%nat.

(** The two fields of such an entry. *)
Definition fields (entry : string) : string * string :=
  match strings.Split entry ":" with
  | [name; value] => (name, value)
  | _ => (EmptyString, EmptyString)
  end.

(** The value the payload gives to a name: that of the last entry with
    this name. *)
Definition lastValue (name : string) (entries : list (string * string)) : option string :=
  snd <$> last (filter (λ e, e.1 = name) entries).

(** The cgroup file of a pod as the session map resolves it. *)
Definition cgroupFile (podUIDs : gmap string string) (podName file : string) : string :=
  kubepods ++ index podUIDs podName ++ file.

(** The helper run the write loop makes for an entry, with its outcome. *)
Definition runOf (podUIDs : gmap string string) (file : string) (ok : bool)
    (entry : string * string) : Exec :=
  {| exec_value := entry.2; exec_file := cgroupFile podUIDs entry.1 file; exec_ok := ok |}.

(** Whether the helper succeeds on an entry. *)
Definition writes (w : World) (podUIDs : gmap string string) (file : string)
    (entry : string * string) : bool :=
  writetofile w entry.2 (cgroupFile podUIDs entry.1 file).

(** The two batch commands, each with the cgroup file it writes. *)
Definition batchCommand (msg file : string) : Prop :=
  (msgTypeOf msg = "applyCPUShares" ∧ file = "/cpu.shares") ∨
  (msgTypeOf msg = "applyCPUQuotas" ∧ file = "/cpu.cfs_quota_us").

(** The status of an answer, and its body when the handler made it (the
    body of an answer of the mux is not modelled). *)
Definition statusOf (x : http.Answer) : Z :=
  match x with
  | http.Handled w => http.status w
  | http.MuxOnly status => status
  end.

Definition bodyOf (x : http.Answer) : option string :=
  match x with
  | http.Handled w => Some (http.body w)
  | http.MuxOnly _ => None
  end.

(** The body the handler gives a request when it reads the weights
    [lbWeights]. *)
Definition bodyFor (lbWeights : string) (r : http.Request) : string :=
  if String.eqb (http.Method r) "HEAD" then EmptyString
  else if (http.Body r).2 then lbWeights
  else "Error reading request body" ++ newline.

(** The requests among the events of an execution, in order. *)
Definition requests (events : list Event) : list http.Request :=
  omap (λ e, match e with Get r => Some r | _ => None end) events.

(** The message types the agent knows. *)
Definition knownTypes : list string :=
  ["updatePods"; "applyLBWeights"; "applyCPUShares"; "applyCPUQuotas";
   "getCPUUtilizations"].

(** A session with one more response sent and nothing else changed. *)
Definition answered (s : Session) (response : string) : Session :=
  {| podUIDs := podUIDs s; weights := weights s; execs := execs s;
     sent := sent s ++ [response]; closed := false |}.

(** A session whose connection has been closed. *)
Definition hungUp (s : Session) : Session :=
  {| podUIDs := podUIDs s; weights := weights s; execs := execs s;
     sent := sent s; closed := true |}.

(** *** The two parsing loops

    Both loops insert, entry after entry, a name with a value converted
    from the second field, and give up on the first entry that has not
    two fields or whose second field does not convert. *)

Section Conversions.

Variable ParseFloat : string → option spec_float.

Definition converted (conv : string → option string) (entry : string) : Prop :=
  twoFields entry ∧ is_Some (conv (fields entry).2).

#[global] Instance twoFields_dec entry : Decision (twoFields entry).
Proof. unfold twoFields. apply _. Defined.

#[global] Instance converted_dec conv entry : Decision (converted conv entry).
Proof. unfold converted. apply _. Defined.

(** The conversion of [getNewPods] keeps the field; that of
    [parsePodShares] prints the share as an integer. *)
Definition keep (uid : string) : option string := Some uid.

Definition printShare (text : string) : option string :=
  (λ share, fmt.Sprintf_d (float64.to_int64 share)) <$> ParseFloat text.

Definition scans (loop : gmap string string → list string → gmap string string * bool)
    (conv : string → option string) : Prop :=
  (∀ acc, loop acc [] = (acc, true)) ∧
  (∀ acc entry rest,
      converted conv entry →
      ∃ value, conv (fields entry).2 = Some value ∧
               loop acc (entry :: rest) = loop (<[(fields entry).1 := value]> acc) rest) ∧
  (∀ acc entry rest, ¬ converted conv entry → loop acc (entry :: rest) = (acc, false)).

(** The two commands as one: the parse, then the write loop. *)
Definition applies (apply : World → gmap string string → string → bool * list Exec)
    (file : string) : Prop :=
  ∀ w podUIDs msg,
    apply w podUIDs msg =
      if (parsePodShares ParseFloat msg).2
      then write_loop w podUIDs file (range_order w 0 (parsePodShares ParseFloat msg).1)
      else (false, []).

(** The name and converted value of an entry. *)
Definition binding (conv : string → option string) (entry : string) : string * string :=
  ((fields entry).1, default EmptyString (conv (fields entry).2)).

End Conversions.

(** ** The parser [updateLBWeights] no longer calls *)

Section Weights.

Variable ParseFloat : string → option spec_float.

(** The loop of [parseLBWeights]: as in [parsePodShares], with the share
    kept as the float it parses to. *)
Fixpoint parseLBWeights_loop (weights : gmap string spec_float) (podStrs : list string)
  : gmap string spec_float * bool :=
  match podStrs with
  | [] => (weights, true)
  | podStr :: rest =>
      match strings.Split podStr ":" with
      | [podName; text] =>
          match ParseFloat text with
          | None => (weights, false)
          | Some share => parseLBWeights_loop (<[podName := share]> weights) rest
          end
      | _ => (weights, false)
      end
  end.

Definition parseLBWeights (msg : string) : gmap string spec_float * bool :=
  parseLBWeights_loop ∅ (tail (strings.Split msg " ")).

End Weights.

(** ** Further vocabulary *)

(** The messages read before the first read error. *)
Fixpoint beforeError (reads : list ReadResult) : list (string * World) :=
  match reads with
  | ReadMsg msgFromCC w :: rest => (msgFromCC, w) :: beforeError rest
  | _ => []
  end.

Definition isError (r : ReadResult) : bool :=
  match r with
  | ReadError => true
  | ReadMsg _ _ => false
  end.

(** A string without the given byte. *)
Definition free (c : ascii) (s : string) : Prop := strings.inCutset c s = false.

(** A pod name or UID as a command can carry it: no space, no colon. *)
Definition plain (s : string) : Prop := free " " s ∧ free ":" s.

(** Fields put together again, each after the first preceded by the
    separator. *)
Fixpoint joined (sep : ascii) (rest : list string) : string :=
  match rest with
  | [] => EmptyString
  | f :: fs => String sep (f ++ joined sep fs)
  end.

(** The wire form of one utilization: a space, the pod, a colon, the
    percentage. *)
Definition utilization (w : World) (entry : string * string) : string :=
  " " ++ entry.1 ++ ":" ++
  fmt_f.Sprintf_f (percentage (getPodCPUUtil w 0 entry.2) (getPodCPUUtil w 1 entry.2)
                              (wrap64 (now w 1 - now w 0))).

Fixpoint concatenated (parts : list string) : string :=
  match parts with
  | [] => EmptyString
  | p :: ps => p ++ concatenated ps
  end.

(** The connection an event belongs to. *)
Definition connOf (e : Event) : option nat :=
  match e with
  | Accept c | Recv c _ | Run c _ _ | Send c | ReadFail c => Some c
  | Get _ => None
  end.

(** The weights messages stored in the course of an execution, in the
    order of the stores. *)
Definition stored (events : list Event) : list string :=
  omap (λ e, match e with
             | Run _ msgFromCC _ =>
                 if String.eqb (msgTypeOf msgFromCC) "applyLBWeights"
                 then Some msgFromCC else None
             | _ => None
             end) events.

(** The events of one connection whose handler meets the given reads: each
    message is read, its command run and its response sent, and a read
    error ends it. *)
Fixpoint eventsOf (c : nat) (reads : list ReadResult) : list Event :=
  match reads with
  | [] => []
  | ReadMsg msgFromCC w :: rest =>
      Recv c msgFromCC :: Run c msgFromCC w :: Send c :: eventsOf c rest
  | ReadError :: _ => [ReadFail c]
  end.

(** The session of a connection of the agent, as the loop of its handler
    sees it between two turns. *)
Definition sessionOf (a : Agent) (k : Conn) : Session :=
  {| podUIDs := conn_podUIDs k; weights := lbWeights a; execs := helperRuns a;
     sent := conn_sent k; closed := conn_closed k |}.

(** * Properties *)

Section Correctness.

Variable ParseFloat : string → option spec_float.

Lemma twoFields_fields entry :
  twoFields entry → strings.Split entry ":" = [(fields entry).1; (fields entry).2].
Proof.
  unfold twoFields, fields.
  destruct (strings.Split entry ":") as [|a [|b [|c l]]]; simpl; intros H;
    try discriminate; reflexivity.
Qed.

Lemma fields_twoFields entry name value :
  strings.Split entry ":" = [name; value] →
  twoFields entry ∧ fields entry = (name, value).
Proof. unfold twoFields, fields. intros ->. split; reflexivity. Qed.

Lemma not_twoFields entry :
  ¬ twoFields entry →
  match strings.Split entry ":" with [_; _] => False | _ => True end.
Proof.
  unfold twoFields.
  destruct (strings.Split entry ":") as [|a [|b [|c l]]]; simpl; intros H; auto.
Qed.

Lemma getNewPods_scans : scans getNewPods_loop keep.
Proof.
  split; [reflexivity | split].
  - intros acc entry rest [Htwo _]. exists (fields entry).2. split; [reflexivity |].
    simpl. rewrite (twoFields_fields _ Htwo). reflexivity.
  - intros acc entry rest Hbad. simpl.
    assert (Hn : ¬ twoFields entry).
    { intros Htwo. apply Hbad. split; [assumption | by eexists]. }
    apply not_twoFields in Hn.
    destruct (strings.Split entry ":") as [|a [|b [|c l]]]; try reflexivity. destruct Hn.
Qed.

Lemma parsePodShares_scans :
  scans (parsePodShares_loop ParseFloat) (printShare ParseFloat).
Proof.
  split; [reflexivity | split].
  - intros acc entry rest [Htwo [value Hv]]. exists value. split; [assumption |].
    simpl. rewrite (twoFields_fields _ Htwo).
    unfold printShare in Hv. destruct (ParseFloat (fields entry).2); simpl in Hv; [| discriminate].
    by inversion Hv.
  - intros acc entry rest Hbad. simpl.
    destruct (decide (twoFields entry)) as [Htwo | Hn].
    + rewrite (twoFields_fields _ Htwo).
      destruct (ParseFloat (fields entry).2) as [share |] eqn:Hp; [| reflexivity].
      exfalso. apply Hbad. split; [assumption |]. unfold printShare. rewrite Hp. by eexists.
    + apply not_twoFields in Hn.
      destruct (strings.Split entry ":") as [|a [|b [|c l]]]; try reflexivity. destruct Hn.
Qed.

Lemma lastValue_cons name e entries :
  lastValue name (e :: entries) =
    match lastValue name entries with
    | Some v => Some v
    | None => if decide (e.1 = name) then Some e.2 else None
    end.
Proof.
  unfold lastValue. rewrite filter_cons.
  destruct (decide (e.1 = name)) as [He | He].
  - rewrite last_cons. destruct (last (filter _ entries)); reflexivity.
  - destruct (last (filter _ entries)); reflexivity.
Qed.

(** A scan that reaches the end holds, for every name, the value of its
    last entry, or what the map held before when no entry names it. *)
Lemma scans_all loop conv (Hscan : scans loop conv) entries :
  Forall (converted conv) entries →
  ∀ acc, ∃ m, loop acc entries = (m, true) ∧
    ∀ name, m !! name =
      match lastValue name (binding conv <$> entries) with
      | Some v => Some v
      | None => acc !! name
      end.
Proof.
  destruct Hscan as (Hnil & Hcons & _).
  induction 1 as [| entry rest Hentry Hrest IH]; intros acc.
  - exists acc. split; [apply Hnil | reflexivity].
  - destruct (Hcons acc entry rest Hentry) as (value & Hv & ->).
    destruct (IH (<[(fields entry).1 := value]> acc)) as (m & -> & Hm).
    exists m. split; [reflexivity |]. intros name.
    rewrite fmap_cons, lastValue_cons, Hm.
    destruct (lastValue name (binding conv <$> rest)); [reflexivity |].
    unfold binding at 1 2. simpl. rewrite Hv. simpl.
    destruct (decide ((fields entry).1 = name)) as [-> | Hne].
    + apply lookup_insert_eq.
    + by apply lookup_insert_ne.
Qed.

(** A scan that meets an entry it cannot convert reports failure. *)
Lemma scans_some_bad loop conv (Hscan : scans loop conv) entries :
  Exists (λ entry, ¬ converted conv entry) entries →
  ∀ acc, (loop acc entries).2 = false.
Proof.
  destruct Hscan as (_ & Hcons & Hbad).
  induction entries as [| entry rest IH]; intros Hex acc.
  - inversion Hex.
  - destruct (decide (converted conv entry)) as [Hok | Hno].
    + destruct (Hcons acc entry rest Hok) as (value & _ & ->).
      apply IH. inversion Hex; subst; [contradiction | assumption].
    + rewrite (Hbad acc entry rest Hno). reflexivity.
Qed.

Lemma binding_keep entry : binding keep entry = fields entry.
Proof. unfold binding, keep. simpl. by destruct (fields entry). Qed.

Lemma converted_keep entry : converted keep entry ↔ twoFields entry.
Proof. unfold converted, keep. split; [by intros [? _] | intros ?; split; [done | by eexists]]. Qed.

Lemma converted_printShare entry :
  converted (printShare ParseFloat) entry ↔
  twoFields entry ∧ is_Some (ParseFloat (fields entry).2).
Proof.
  unfold converted, printShare. rewrite fmap_is_Some. reflexivity.
Qed.

(** *** The dispatch on the message type *)

Lemma dispatch_updatePods w podUIDs lbWeights msg :
  msgTypeOf msg = "updatePods" →
  dispatch ParseFloat w podUIDs lbWeights msg =
    {| out_podUIDs := if (getNewPods msg).2 then (getNewPods msg).1 else podUIDs;
       out_weights := lbWeights; out_execs := [];
       out_response := sendSuccessOrFailResponse (getNewPods msg).2 |}.
Proof.
  intros Htype. unfold dispatch. rewrite Htype. simpl.
  by destruct (getNewPods msg).
Qed.

Lemma dispatch_applyCPUShares w podUIDs lbWeights msg :
  msgTypeOf msg = "applyCPUShares" →
  dispatch ParseFloat w podUIDs lbWeights msg =
    {| out_podUIDs := podUIDs; out_weights := lbWeights;
       out_execs := (applyCPUShares ParseFloat w podUIDs msg).2;
       out_response := sendSuccessOrFailResponse (applyCPUShares ParseFloat w podUIDs msg).1 |}.
Proof.
  intros Htype. unfold dispatch. rewrite Htype. simpl.
  by destruct (applyCPUShares ParseFloat w podUIDs msg).
Qed.

Lemma dispatch_applyCPUQuotas w podUIDs lbWeights msg :
  msgTypeOf msg = "applyCPUQuotas" →
  dispatch ParseFloat w podUIDs lbWeights msg =
    {| out_podUIDs := podUIDs; out_weights := lbWeights;
       out_execs := (applyCPUQuotas ParseFloat w podUIDs msg).2;
       out_response := sendSuccessOrFailResponse (applyCPUQuotas ParseFloat w podUIDs msg).1 |}.
Proof.
  intros Htype. unfold dispatch. rewrite Htype. simpl.
  by destruct (applyCPUQuotas ParseFloat w podUIDs msg).
Qed.

Lemma dispatch_applyLBWeights w podUIDs lbWeights msg :
  msgTypeOf msg = "applyLBWeights" →
  dispatch ParseFloat w podUIDs lbWeights msg =
    {| out_podUIDs := podUIDs; out_weights := msg; out_execs := [];
       out_response := "Success" |}.
Proof. intros Htype. unfold dispatch. rewrite Htype. reflexivity. Qed.

Lemma dispatch_unknown w podUIDs lbWeights msg :
  msgTypeOf msg ∉ knownTypes →
  dispatch ParseFloat w podUIDs lbWeights msg =
    {| out_podUIDs := podUIDs; out_weights := lbWeights; out_execs := [];
       out_response := "Unknown message type" |}.
Proof.
  unfold knownTypes. rewrite !not_elem_of_cons. intros (H1 & H2 & H3 & H4 & H5 & _).
  unfold dispatch.
  apply String.eqb_neq in H1, H2, H3, H4, H5. by rewrite H1, H2, H3, H4, H5.
Qed.

(** Only [applyLBWeights] changes the weights. *)
Lemma dispatch_weights w podUIDs lbWeights msg :
  String.eqb (msgTypeOf msg) "applyLBWeights" = false →
  out_weights (dispatch ParseFloat w podUIDs lbWeights msg) = lbWeights.
Proof.
  intros Hne. unfold dispatch. rewrite Hne.
  repeat match goal with
         | |- context [if ?b then _ else _] => destruct b
         | |- context [let '(_, _) := ?p in _] => destruct p
         end; reflexivity.
Qed.

(** *** updatePods *)

(** C5. An [updatePods] message whose entries all split into exactly two
    fields on [":"] is answered [Success], and the session map then holds,
    for every name, the UID of the last entry with that name and nothing
    else (whatever the map held before is gone); when some entry does not
    split into two fields the answer is [Failure] and the session map is
    the one from before. *)
Theorem updatePods_replaces_session_map w podUIDs lbWeights msg :
  msgTypeOf msg = "updatePods" →
  let o := dispatch ParseFloat w podUIDs lbWeights msg in
  (Forall twoFields (payload msg) →
     out_response o = "Success" ∧
     ∀ name, out_podUIDs o !! name = lastValue name (fields <$> payload msg)) ∧
  (¬ Forall twoFields (payload msg) →
     out_response o = "Failure" ∧ out_podUIDs o = podUIDs).
Proof.
  intros Htype o. subst o. rewrite (dispatch_updatePods _ _ _ _ Htype). simpl.
  unfold getNewPods. fold (payload msg). split.
  - intros Hall.
    assert (Hconv : Forall (converted keep) (payload msg)).
    { eapply Forall_impl; [exact Hall |]. intros e. apply converted_keep. }
    destruct (scans_all _ _ getNewPods_scans _ Hconv ∅) as (m & -> & Hm). simpl.
    split; [reflexivity |]. intros name. rewrite Hm.
    rewrite (list_fmap_ext (binding keep) fields (payload msg) (λ _ e _, binding_keep e)).
    rewrite lookup_empty. by destruct (lastValue name (fields <$> payload msg)).
  - intros Hnot.
    assert (Hex : Exists (λ e, ¬ converted keep e) (payload msg)).
    { apply not_Forall_Exists in Hnot; [| apply _].
      eapply Exists_impl; [exact Hnot |]. intros e He Hc.
      apply converted_keep in Hc. contradiction. }
    rewrite (scans_some_bad _ _ getNewPods_scans _ Hex ∅). done.
Qed.

(** *** Unknown messages and read errors *)

(** C6. A message whose first word is none of the five commands is answered
    [Unknown message type]; the session map, the weights and the cgroup
    files stay as they were and the loop goes on to the next read, the
    connection open.  A read error ends the loop, whatever would follow,
    and the connection is closed. *)
Theorem unknown_message_and_read_error s msg w rest :
  msgTypeOf msg ∉ knownTypes →
  processClient_loop ParseFloat (ReadMsg msg w :: rest) s =
    processClient_loop ParseFloat rest (answered s "Unknown message type") ∧
  processClient_loop ParseFloat (ReadError :: rest) s = hungUp s.
Proof.
  intros Hunknown. split; [| reflexivity].
  simpl. unfold turn. rewrite (dispatch_unknown _ _ _ _ Hunknown). simpl.
  unfold answered. by rewrite app_nil_r.
Qed.

(** *** The write loop *)

Lemma write_loop_all_ok w podUIDs file entries :
  Forall (λ e, writes w podUIDs file e = true) entries →
  write_loop w podUIDs file entries = (true, runOf podUIDs file true <$> entries).
Proof.
  induction 1 as [| [podName share] rest Hok _ IH]; [reflexivity |].
  simpl. unfold writes in Hok. simpl in Hok. unfold cgroupFile in Hok.
  rewrite Hok, IH. reflexivity.
Qed.

Lemma write_loop_first_failure w podUIDs file done bad rest :
  Forall (λ e, writes w podUIDs file e = true) done →
  writes w podUIDs file bad = false →
  write_loop w podUIDs file (done ++ bad :: rest)%list =
    (false, ((runOf podUIDs file true <$> done) ++ [runOf podUIDs file false bad])%list).
Proof.
  intros Hdone Hbad.
  induction Hdone as [| [podName share] done' Hok _ IH]; simpl.
  - destruct bad as [podName share]. unfold writes in Hbad. simpl in Hbad.
    unfold cgroupFile in Hbad. rewrite Hbad. reflexivity.
  - unfold writes in Hok. simpl in Hok. unfold cgroupFile in Hok.
    rewrite Hok, IH. reflexivity.
Qed.

(** Either every run of the loop succeeds or there is a first one that
    fails. *)
Lemma first_failure w podUIDs file entries :
  Forall (λ e, writes w podUIDs file e = true) entries ∨
  ∃ done bad rest, entries = (done ++ bad :: rest)%list ∧
    Forall (λ e, writes w podUIDs file e = true) done ∧
    writes w podUIDs file bad = false.
Proof.
  induction entries as [| e rest IH]; [left; constructor |].
  destruct (writes w podUIDs file e) eqn:He.
  - destruct IH as [Hall | (done & bad & rest' & -> & Hdone & Hbad)].
    + left. by constructor.
    + right. exists (e :: done), bad, rest'. split; [reflexivity |]. split; [by constructor | done].
  - right. exists [], e, rest. split; [reflexivity |]. split; [constructor | done].
Qed.

(** The verdict of the loop: it fails exactly when the helper fails on
    some entry. *)
Lemma write_loop_verdict w podUIDs file entries :
  (write_loop w podUIDs file entries).1 = false ↔
  ∃ e, e ∈ entries ∧ writes w podUIDs file e = false.
Proof.
  destruct (first_failure w podUIDs file entries)
    as [Hall | (done & bad & rest & -> & Hdone & Hbad)].
  - rewrite (write_loop_all_ok _ _ _ _ Hall). simpl. split; [discriminate |].
    intros (e & He & Hfail). rewrite Forall_forall in Hall.
    rewrite (Hall e He) in Hfail. discriminate.
  - rewrite (write_loop_first_failure _ _ _ _ _ rest Hdone Hbad). simpl.
    split; [| reflexivity]. intros _. exists bad. split; [| assumption].
    apply elem_of_app. right. apply elem_of_cons. by left.
Qed.

(** Every run of the loop is the run of an entry. *)
Lemma write_loop_runs w podUIDs file entries run :
  run ∈ (write_loop w podUIDs file entries).2 →
  ∃ e, e ∈ entries ∧ exec_value run = e.2 ∧
       exec_file run = cgroupFile podUIDs e.1 file.
Proof.
  destruct (first_failure w podUIDs file entries)
    as [Hall | (done & bad & rest & -> & Hdone & Hbad)].
  - rewrite (write_loop_all_ok _ _ _ _ Hall). simpl.
    intros (e & -> & He)%list_elem_of_fmap. by exists e.
  - rewrite (write_loop_first_failure _ _ _ _ _ rest Hdone Hbad). simpl.
    intros [(e & -> & He)%list_elem_of_fmap | ->%list_elem_of_singleton]%elem_of_app.
    + exists e. split; [| done]. apply elem_of_app. by left.
    + exists bad. split; [| done]. apply elem_of_app. right. apply elem_of_cons. by left.
Qed.

Lemma applyCPUShares_applies :
  applies ParseFloat (applyCPUShares ParseFloat) "/cpu.shares".
Proof.
  intros w podUIDs msg. unfold applyCPUShares.
  by destruct (parsePodShares ParseFloat msg) as [parsed []].
Qed.

Lemma applyCPUQuotas_applies :
  applies ParseFloat (applyCPUQuotas ParseFloat) "/cpu.cfs_quota_us".
Proof.
  intros w podUIDs msg. unfold applyCPUQuotas.
  by destruct (parsePodShares ParseFloat msg) as [parsed []].
Qed.

Lemma dispatch_batch w podUIDs lbWeights msg file :
  batchCommand msg file →
  dispatch ParseFloat w podUIDs lbWeights msg =
    let r := if (parsePodShares ParseFloat msg).2
             then write_loop w podUIDs file
                    (range_order w 0 (parsePodShares ParseFloat msg).1)
             else (false, []) in
    {| out_podUIDs := podUIDs; out_weights := lbWeights; out_execs := r.2;
       out_response := sendSuccessOrFailResponse r.1 |}.
Proof.
  intros [[Htype ->] | [Htype ->]].
  - rewrite (dispatch_applyCPUShares _ _ _ _ Htype), applyCPUShares_applies. reflexivity.
  - rewrite (dispatch_applyCPUQuotas _ _ _ _ Htype), applyCPUQuotas_applies. reflexivity.
Qed.

(** What a successful parse holds: every entry converts, and each name has
    the value of its last entry. *)
Lemma parsePodShares_true msg :
  (parsePodShares ParseFloat msg).2 = true →
  Forall (converted (printShare ParseFloat)) (payload msg) ∧
  ∀ name, (parsePodShares ParseFloat msg).1 !! name =
          lastValue name (binding (printShare ParseFloat) <$> payload msg).
Proof.
  unfold parsePodShares. fold (payload msg). intros Hok.
  destruct (decide (Forall (converted (printShare ParseFloat)) (payload msg))) as [Hall | Hnot].
  - split; [assumption |].
    destruct (scans_all _ _ parsePodShares_scans _ Hall ∅) as (m & Hm & Hlook).
    rewrite Hm. simpl. intros name. rewrite Hlook, lookup_empty.
    by destruct (lastValue name _).
  - apply not_Forall_Exists in Hnot; [| apply _].
    rewrite (scans_some_bad _ _ parsePodShares_scans _ Hnot ∅) in Hok. discriminate.
Qed.

Lemma parsePodShares_false msg :
  Exists (λ entry, ¬ twoFields entry ∨ ParseFloat (fields entry).2 = None) (payload msg) →
  (parsePodShares ParseFloat msg).2 = false.
Proof.
  intros Hex. unfold parsePodShares. fold (payload msg).
  apply (scans_some_bad _ _ parsePodShares_scans).
  eapply Exists_impl; [exact Hex |]. intros entry Hbad [Htwo Hsome]%converted_printShare.
  destruct Hbad as [Hbad | Hbad]; [contradiction |].
  rewrite Hbad in Hsome. by destruct Hsome.
Qed.

Lemma lastValue_elem name value (entries : list (string * string)) :
  lastValue name entries = Some value → (name, value) ∈ entries.
Proof.
  unfold lastValue. destruct (last (filter _ entries)) as [[n v] |] eqn:Hlast; [| discriminate].
  simpl. intros [= ->]. apply last_Some_elem_of in Hlast.
  apply list_elem_of_filter in Hlast as [Hname Hin]. simpl in Hname. by subst n.
Qed.

(** *** Batches that fail *)

(** C10. An [applyCPUShares] or [applyCPUQuotas] command with an entry that
    has not exactly two fields, or whose value is no float, is answered
    [Failure] and runs the write helper not even once: the whole payload
    is parsed before the first write. *)
Theorem bad_payload_fails_before_any_write w podUIDs lbWeights msg :
  msgTypeOf msg = "applyCPUShares" ∨ msgTypeOf msg = "applyCPUQuotas" →
  Exists (λ entry, ¬ twoFields entry ∨ ParseFloat (fields entry).2 = None) (payload msg) →
  let o := dispatch ParseFloat w podUIDs lbWeights msg in
  out_response o = "Failure" ∧ out_execs o = [].
Proof.
  intros Htype Hbad o. subst o.
  assert (Hbatch : ∃ file, batchCommand msg file).
  { destruct Htype as [H | H]; eexists; [left | right]; split; first [exact H | reflexivity]. }
  destruct Hbatch as [file Hbatch].
  rewrite (dispatch_batch _ _ _ _ _ Hbatch), (parsePodShares_false _ Hbad). by split.
Qed.

(** C3, as the code has it. A batch that fails is answered [Failure].  When
    it fails in the parse, no write is made.  When it fails at a write, the
    writes made before it have succeeded and stay in effect (nothing is
    rolled back), the failing write is the last one, and the entries after
    it are not written. *)
Theorem failed_batch_stops_without_rollback w podUIDs lbWeights msg file :
  batchCommand msg file →
  let o := dispatch ParseFloat w podUIDs lbWeights msg in
  ((parsePodShares ParseFloat msg).2 = false →
     out_response o = "Failure" ∧ out_execs o = []) ∧
  (∀ done bad rest,
     (parsePodShares ParseFloat msg).2 = true →
     range_order w 0 (parsePodShares ParseFloat msg).1 = (done ++ bad :: rest)%list →
     Forall (λ e, writes w podUIDs file e = true) done →
     writes w podUIDs file bad = false →
     out_response o = "Failure" ∧
     out_execs o = ((runOf podUIDs file true <$> done) ++ [runOf podUIDs file false bad])%list).
Proof.
  intros Hbatch o. subst o. rewrite (dispatch_batch _ _ _ _ _ Hbatch). split.
  - intros ->. by split.
  - intros done bad rest -> -> Hdone Hbad.
    rewrite (write_loop_first_failure _ _ _ _ _ rest Hdone Hbad). by split.
Qed.

(** C4, as the code has it. A batch command naming a pod that the session
    map does not know resolves the pod to the empty UID: when the payload
    parses, the response is [Failure] exactly when the helper fails on
    some entry and [Success] otherwise, the unknown name making no
    difference; and when it is [Success], the helper has run on the file
    directly under [kubepods/] (the path with nothing between the two
    slashes) with the value of the unknown pod. *)
Theorem unknown_pod_is_written_under_kubepods w podUIDs lbWeights msg file name share :
  range_complete w →
  batchCommand msg file →
  (parsePodShares ParseFloat msg).2 = true →
  (parsePodShares ParseFloat msg).1 !! name = Some share →
  podUIDs !! name = None →
  let o := dispatch ParseFloat w podUIDs lbWeights msg in
  let fails := ∃ n v, (parsePodShares ParseFloat msg).1 !! n = Some v ∧
                      writetofile w v (kubepods ++ index podUIDs n ++ file) = false in
  (out_response o = "Failure" ↔ fails) ∧
  (out_response o = "Success" ↔ ¬ fails) ∧
  (out_response o = "Success" →
   {| exec_value := share; exec_file := kubepods ++ file; exec_ok := true |}
     ∈ out_execs o).
Proof.
  intros Hrange Hbatch Hparse Hnamed Hunknown o fails. subst o fails.
  rewrite (dispatch_batch _ _ _ _ _ Hbatch), Hparse. simpl.
  set (parsed := (parsePodShares ParseFloat msg).1) in *.
  assert (Hverdict := write_loop_verdict w podUIDs file (range_order w 0 parsed)).
  assert (Hfails : (write_loop w podUIDs file (range_order w 0 parsed)).1 = false ↔
                   ∃ n v, parsed !! n = Some v ∧
                          writetofile w v (kubepods ++ index podUIDs n ++ file) = false).
  { rewrite Hverdict. split.
    - intros ([n v] & Hin & Hfail). exists n, v. split; [| exact Hfail].
      rewrite (Hrange 0%nat parsed) in Hin. by apply elem_of_map_to_list in Hin.
    - intros (n & v & Hlook & Hfail). exists (n, v). split; [| exact Hfail].
      rewrite (Hrange 0%nat parsed). by apply elem_of_map_to_list. }
  assert (Hruns : (write_loop w podUIDs file (range_order w 0 parsed)).1 = true →
                  {| exec_value := share; exec_file := kubepods ++ file; exec_ok := true |}
                    ∈ (write_loop w podUIDs file (range_order w 0 parsed)).2).
  { intros Hok.
    destruct (first_failure w podUIDs file (range_order w 0 parsed))
      as [Hall | (done & bad & rest & Hsplit & Hdone & Hbad)].
    - rewrite (write_loop_all_ok _ _ _ _ Hall). simpl.
      apply list_elem_of_fmap. exists (name, share). split.
      + unfold runOf, cgroupFile, index. simpl. by rewrite Hunknown.
      + rewrite (Hrange 0%nat parsed). by apply elem_of_map_to_list.
    - rewrite Hsplit, (write_loop_first_failure _ _ _ _ _ rest Hdone Hbad) in Hok.
      discriminate. }
  destruct (write_loop w podUIDs file (range_order w 0 parsed)) as [[|] runs];
    simpl in *.
  - split; [| split].
    + split; [discriminate |]. intros Hf. apply Hfails in Hf. discriminate.
    + split; [| reflexivity]. intros _ Hf. apply Hfails in Hf. discriminate.
    + intros _. by apply Hruns.
  - split; [| split].
    + split; [| reflexivity]. intros _. by apply Hfails.
    + split; [discriminate |]. intros Hnot. exfalso. by apply Hnot, Hfails.
    + discriminate.
Qed.

(** *** The value written for a share *)

Lemma to_int64_trunc share :
  float64.is_finite share = true →
  in_int64 (float64.trunc share) = true →
  float64.to_int64 share = float64.trunc share.
Proof.
  destruct share as [s | s | | s m e]; simpl; try discriminate; [reflexivity |].
  intros _ Hfit. unfold float64.to_int64. by rewrite Hfit.
Qed.

Lemma trunc_floor_nonneg share :
  float64.signbit share = false → float64.trunc share = float64.floor share.
Proof. destruct share as [s | s | | s m e]; simpl; try reflexivity. by intros ->. Qed.

Lemma lastValue_last name value (before after : list (string * string)) :
  Forall (λ b, b.1 ≠ name) after →
  lastValue name (before ++ (name, value) :: after) = Some value.
Proof.
  intros Hafter. unfold lastValue.
  rewrite filter_app, filter_cons_True by reflexivity.
  assert (Hnone : filter (λ e, e.1 = name) after = []).
  { induction Hafter as [| b after Hb _ IH]; [reflexivity |].
    by rewrite filter_cons_False. }
  rewrite Hnone, last_snoc. reflexivity.
Qed.

(** C7, as the code has it. Take an entry [podName:x] of an
    [applyCPUShares] payload whose value parses as a float [x], the last
    entry of the payload for its pod name, no entry of another pod name
    resolving to the same [cpu.shares] file.  Every value the write helper
    is passed for this file is the decimal integer [int64(x)], and when
    the response is [Success] the helper has been passed it.  For a finite
    [x] whose integer part fits [int64], [int64(x)] is [x] cut toward
    zero, which is the floor of [x] when [x] is not negative. *)
Theorem shares_are_cut_toward_zero w podUIDs lbWeights msg before entry after
    name text share :
  range_complete w →
  msgTypeOf msg = "applyCPUShares" →
  payload msg = (before ++ entry :: after)%list →
  strings.Split entry ":" = [name; text] →
  ParseFloat text = Some share →
  Forall (λ e, (fields e).1 ≠ name) after →
  (∀ e, e ∈ payload msg →
        kubepods ++ index podUIDs (fields e).1 ++ "/cpu.shares" =
        kubepods ++ index podUIDs name ++ "/cpu.shares" →
        (fields e).1 = name) →
  let o := dispatch ParseFloat w podUIDs lbWeights msg in
  let file := kubepods ++ index podUIDs name ++ "/cpu.shares" in
  (∀ run, run ∈ out_execs o → exec_file run = file →
          exec_value run = fmt.Sprintf_d (float64.to_int64 share)) ∧
  (out_response o = "Success" →
   {| exec_value := fmt.Sprintf_d (float64.to_int64 share); exec_file := file;
      exec_ok := true |} ∈ out_execs o) ∧
  (float64.is_finite share = true → in_int64 (float64.trunc share) = true →
     float64.to_int64 share = float64.trunc share ∧
     (float64.signbit share = false → float64.trunc share = float64.floor share)).
Proof.
  intros Hrange Htype Hpayload Hsplit Hshare Hlast Halone o file. subst o file.
  split; [| split].
  - rewrite (dispatch_batch _ _ _ _ "/cpu.shares"); [| by left]. simpl.
    destruct ((parsePodShares ParseFloat msg).2) eqn:Hparse;
      [| intros run Hempty; by apply elem_of_nil in Hempty].
    destruct (parsePodShares_true _ Hparse) as [Hall Hlook].
    intros run Hrun Hfile.
    apply write_loop_runs in Hrun as ([n v] & Hin & Hvalue & Hfile').
    simpl in Hvalue, Hfile'.
    rewrite (Hrange 0%nat) in Hin. apply elem_of_map_to_list in Hin.
    assert (Hn : n = name).
    { assert (Hin' := Hin). rewrite Hlook in Hin'. apply lastValue_elem in Hin'.
      apply list_elem_of_fmap in Hin' as (e & Hbind & He).
      unfold binding in Hbind. injection Hbind as Hn _. subst n.
      apply (Halone e He). by rewrite <- Hfile, Hfile'. }
    subst n. rewrite Hvalue. rewrite Hlook, Hpayload, fmap_app, fmap_cons in Hin.
    apply fields_twoFields in Hsplit as [_ Hfields].
    unfold binding at 2 in Hin. rewrite Hfields in Hin. simpl in Hin.
    unfold printShare in Hin. rewrite Hshare in Hin. simpl in Hin.
    rewrite lastValue_last in Hin; [by injection Hin as <- |].
    apply Forall_fmap. eapply Forall_impl; [exact Hlast |]. by intros e He.
  - rewrite (dispatch_batch _ _ _ _ "/cpu.shares"); [| by left]. simpl.
    destruct ((parsePodShares ParseFloat msg).2) eqn:Hparse; [| discriminate].
    destruct (parsePodShares_true _ Hparse) as [Hall Hlook].
    set (parsed := (parsePodShares ParseFloat msg).1) in *.
    assert (Hnamed : parsed !! name = Some (fmt.Sprintf_d (float64.to_int64 share))).
    { rewrite Hlook, Hpayload, fmap_app, fmap_cons.
      apply fields_twoFields in Hsplit as [_ Hfields].
      unfold binding at 2. rewrite Hfields. simpl.
      unfold printShare. rewrite Hshare. simpl.
      apply lastValue_last.
      apply Forall_fmap. eapply Forall_impl; [exact Hlast |]. by intros e He. }
    destruct (first_failure w podUIDs "/cpu.shares" (range_order w 0 parsed))
      as [Hok | (done & bad & rest & Hcut & Hdone & Hbad)].
    + rewrite (write_loop_all_ok _ _ _ _ Hok). simpl. intros _.
      apply list_elem_of_fmap.
      exists (name, fmt.Sprintf_d (float64.to_int64 share)). split; [reflexivity |].
      rewrite (Hrange 0%nat parsed). by apply elem_of_map_to_list.
    + rewrite Hcut, (write_loop_first_failure _ _ _ _ _ rest Hdone Hbad). simpl.
      discriminate.
  - intros Hfinite Hfit. split; [by apply to_int64_trunc | apply trunc_floor_nonneg].
Qed.

(** *** CPU utilizations *)

Lemma capture_other w k (entries : list (string * string)) (name : string) :
  ∀ utils : gmap string Z, name ∉ entries.*1 →
    foldl (λ utils '(podName, uid), <[podName := getPodCPUUtil w k uid]> utils)
      utils entries !! name = utils !! name.
Proof.
  induction entries as [| [podName uid] rest IH]; intros utils Hnot; [reflexivity |].
  simpl in *. apply not_elem_of_cons in Hnot as [Hne Hrest].
  rewrite (IH _ Hrest). by apply lookup_insert_ne.
Qed.

(** A capture holds, for every pod, the reading of its own usage file. *)
Lemma capture_lookup w k entries name uid :
  NoDup entries.*1 → (name, uid) ∈ entries →
  index64 (capture w k entries) name = getPodCPUUtil w k uid.
Proof.
  unfold capture, index64. generalize (∅ : gmap string Z).
  induction entries as [| [podName uid'] rest IH]; intros utils Hnodup Hin.
  - by apply elem_of_nil in Hin.
  - simpl in *. apply NoDup_cons in Hnodup as [Hfresh Hnodup].
    apply elem_of_cons in Hin as [[= <- <-] | Hin].
    + by rewrite (capture_other _ _ _ _ _ Hfresh), lookup_insert_eq.
    + by apply IH.
Qed.

Lemma foldl_agree {A B} (f g : A → B → A) (l : list B) :
  (∀ a x, x ∈ l → f a x = g a x) → ∀ a, foldl f a l = foldl g a l.
Proof.
  induction l as [| x l IH]; intros Hfg a; [reflexivity |].
  simpl. rewrite (Hfg a x); [| by left]. apply IH.
  intros a' y Hy. apply Hfg. by right.
Qed.

(** What the response lists for a pod is computed from the two readings of
    the pod's own usage file, each replaced by -1 when it failed, and from
    the elapsed time; no other pod enters it. *)
Lemma getCPUUtilizations_by_pod w podUIDs :
  range_complete w →
  getCPUUtilizations w podUIDs =
    foldl (λ response '(podName, uid),
             response ++ " " ++ podName ++ ":" ++
             fmt_f.Sprintf_f (percentage (getPodCPUUtil w 0 uid) (getPodCPUUtil w 1 uid)
                                         (wrap64 (now w 1 - now w 0))))
          "utils:" (range_order w 2 podUIDs).
Proof.
  intros Hrange. unfold getCPUUtilizations. apply foldl_agree.
  intros response [podName uid] Hin.
  rewrite (Hrange 2%nat) in Hin.
  assert (Hcapture : ∀ k n, index64 (capture w k (range_order w n podUIDs)) podName =
                            getPodCPUUtil w k uid).
  { intros k n. apply capture_lookup.
    - rewrite (Hrange n). apply NoDup_fst_map_to_list.
    - by rewrite (Hrange n). }
  by rewrite !Hcapture.
Qed.

(** *** The weights endpoint *)

Variable ServeMux : http.Request → http.Routing.

Lemma listenForReqsFromLB_status lbWeights' r :
  http.status (listenForReqsFromLB lbWeights' r) = http.StatusOK.
Proof.
  unfold listenForReqsFromLB. destruct (http.Body r) as [data []]; simpl.
  - unfold http.Write. simpl. by destruct (String.eqb (http.Method r) "HEAD").
  - unfold http.Error, http.Write. simpl. by destruct (String.eqb (http.Method r) "HEAD").
Qed.

Lemma listenForReqsFromLB_body lbWeights' r :
  http.body (listenForReqsFromLB lbWeights' r) = bodyFor lbWeights' r.
Proof.
  unfold listenForReqsFromLB, bodyFor. destruct (http.Body r) as [data []]; simpl.
  - unfold http.Write. simpl. by destruct (String.eqb (http.Method r) "HEAD").
  - unfold http.Error, http.Write. simpl. by destruct (String.eqb (http.Method r) "HEAD").
Qed.

(** The handler sets [Connection] after the first [WriteHeader]: nothing
    of its header map gets into the response. *)
Lemma listenForReqsFromLB_frozenHeader lbWeights' r :
  http.frozenHeader (listenForReqsFromLB lbWeights' r) = ∅.
Proof.
  unfold listenForReqsFromLB. destruct (http.Body r) as [data []]; simpl.
  - unfold http.Write. simpl. by destruct (String.eqb (http.Method r) "HEAD").
  - unfold http.Error, http.Write. simpl. by destruct (String.eqb (http.Method r) "HEAD").
Qed.

(** C9, as the code has it. No request changes the stored weights or
    anything else the agent holds.  A request that the mux answers by
    itself does not reach the handler.  A request that the mux hands to
    the handler is answered, when its body was read to the end, with
    status 200 and with the stored weights, byte for byte, as the body;
    but a request made with [HEAD] gets no body, and a request whose body
    could not be read gets the text of the read error as the body. *)
Theorem weights_endpoint_is_a_getter a r :
  ∃ answer,
    step ParseFloat ServeMux a (Get r) =
      Some {| lbWeights := lbWeights a; conns := conns a; helperRuns := helperRuns a;
              served := served a ++ [answer] |} ∧
    (∀ status, ServeMux r = http.ByMux status → answer = http.MuxOnly status) ∧
    (ServeMux r = http.ToHandler →
       ∃ w, answer = http.Handled w ∧
            ((http.Body r).2 = true → http.status w = 200) ∧
            http.body w =
              if String.eqb (http.Method r) "HEAD" then EmptyString
              else if (http.Body r).2 then lbWeights a
              else "Error reading request body" ++ newline).
Proof.
  exists (serve ServeMux (lbWeights a) r). split; [reflexivity |].
  unfold serve. split.
  - by intros status ->.
  - intros ->. eexists. split; [reflexivity |]. split.
    + intros _. apply listenForReqsFromLB_status.
    + apply listenForReqsFromLB_body.
Qed.

(** *** The weights between two stores *)

Lemma run_app events events' :
  ∀ a, run ParseFloat ServeMux a (events ++ events') =
       match run ParseFloat ServeMux a events with
       | Some a1 => run ParseFloat ServeMux a1 events'
       | None => None
       end.
Proof.
  induction events as [| e events IH]; intros a; simpl; [reflexivity |].
  by destruct (step ParseFloat ServeMux a e).
Qed.

Lemma step_other_connection a e a' c :
  step ParseFloat ServeMux a e = Some a' →
  connOf e ≠ Some c →
  conns a' !! c = conns a !! c.
Proof.
  destruct e as [c0 | c0 msg | c0 msg w | c0 | c0 | r]; simpl; intros Hstep Hother.
  - destruct (conns a !! c0); [discriminate |]. injection Hstep as <-. simpl.
    apply lookup_insert_ne. congruence.
  - destruct (conns a !! c0) as [k |]; [| discriminate].
    destruct (idle k); [| discriminate]. injection Hstep as <-. simpl.
    apply lookup_insert_ne. congruence.
  - destruct (conns a !! c0) as [k |]; [| discriminate].
    destruct (conn_read k); [| discriminate].
    destruct (negb (conn_closed k) && _); [| discriminate].
    injection Hstep as <-. simpl. apply lookup_insert_ne. congruence.
  - destruct (conns a !! c0) as [k |]; [| discriminate].
    destruct (conn_pending k); [| discriminate].
    destruct (conn_closed k); [discriminate |]. injection Hstep as <-. simpl.
    apply lookup_insert_ne. congruence.
  - destruct (conns a !! c0) as [k |]; [| discriminate].
    destruct (idle k); [| discriminate]. injection Hstep as <-. simpl.
    apply lookup_insert_ne. congruence.
  - by injection Hstep as <-.
Qed.

Lemma run_other_connection events :
  ∀ a a' c,
    run ParseFloat ServeMux a events = Some a' →
    Forall (λ e, connOf e ≠ Some c) events →
    conns a' !! c = conns a !! c.
Proof.
  induction events as [| e events IH]; intros a a' c Hrun Hothers; simpl in Hrun.
  - by injection Hrun as <-.
  - destruct (step ParseFloat ServeMux a e) as [a1 |] eqn:Hstep; [| discriminate].
    inversion Hothers as [| ? ? He Hrest]; subst.
    rewrite (IH _ _ _ Hrun Hrest). by apply (step_other_connection a e).
Qed.

Lemma step_keeps_weights a e a' :
  step ParseFloat ServeMux a e = Some a' →
  storesWeights e = false →
  lbWeights a' = lbWeights a ∧
  served a' = (served a ++ (serve ServeMux (lbWeights a) <$> requests [e]))%list.
Proof.
  destruct e as [c | c msg | c msg w | c | c | r]; simpl; intros Hstep Hstore.
  - destruct (conns a !! c); [discriminate |]. injection Hstep as <-. simpl.
    by rewrite app_nil_r.
  - destruct (conns a !! c) as [k |]; [| discriminate].
    destruct (idle k); [| discriminate]. injection Hstep as <-. simpl.
    by rewrite app_nil_r.
  - destruct (conns a !! c) as [k |]; [| discriminate].
    destruct (conn_read k); [| discriminate].
    destruct (negb (conn_closed k) && _); [| discriminate].
    injection Hstep as <-. simpl. by rewrite app_nil_r, dispatch_weights.
  - destruct (conns a !! c) as [k |]; [| discriminate].
    destruct (conn_pending k); [| discriminate].
    destruct (conn_closed k); [discriminate |]. injection Hstep as <-. simpl.
    by rewrite app_nil_r.
  - destruct (conns a !! c) as [k |]; [| discriminate].
    destruct (idle k); [| discriminate]. injection Hstep as <-. simpl.
    by rewrite app_nil_r.
  - injection Hstep as <-. by simpl.
Qed.

Lemma run_keeps_weights events :
  ∀ a a',
    run ParseFloat ServeMux a events = Some a' →
    Forall (λ e, storesWeights e = false) events →
    lbWeights a' = lbWeights a ∧
    served a' = (served a ++ (serve ServeMux (lbWeights a) <$> requests events))%list.
Proof.
  induction events as [| e events IH]; intros a a' Hrun Hquiet.
  - injection Hrun as <-. simpl. by rewrite app_nil_r.
  - simpl in Hrun.
    destruct (step ParseFloat ServeMux a e) as [a1 |] eqn:Hstep; [| discriminate].
    inversion Hquiet as [| ? ? He Hrest]; subst.
    destruct (step_keeps_weights _ _ _ Hstep He) as [Hw Hs].
    destruct (IH _ _ Hrun Hrest) as [Hw' Hs'].
    split; [congruence |].
    rewrite Hs', Hs, Hw, <- app_assoc. f_equal.
    change (e :: events) with ([e] ++ events)%list.
    unfold requests. by rewrite omap_app, fmap_app.
Qed.

(** C1, as the code has it. Let the command of an [applyLBWeights] message
    be carried out, which stores the message, and let its response then be
    sent, no other [applyLBWeights] message being stored in between.  The
    response is [Success], and from this acknowledgement on, until an
    [applyLBWeights] message is stored again (by whichever connection, and
    before that message is acknowledged), the weights the agent holds are
    the message as it was read, the command word included, and every
    request is answered from them: when the mux hands the request to the
    handler, the body of the answer is the whole message, but it is empty
    for [HEAD] and the text of the read error when the body of the
    request could not be read. *)
Theorem acknowledged_message_is_served a c msg w a1 between a2 events a' :
  msgTypeOf msg = "applyLBWeights" →
  step ParseFloat ServeMux a (Run c msg w) = Some a1 →
  Forall (λ e, connOf e ≠ Some c) between →
  Forall (λ e, storesWeights e = false) between →
  run ParseFloat ServeMux a1 (between ++ [Send c]) = Some a2 →
  Forall (λ e, storesWeights e = false) events →
  run ParseFloat ServeMux a2 events = Some a' →
  (∃ k, conns a2 !! c = Some k ∧ last (conn_sent k) = Some "Success") ∧
  lbWeights a' = msg ∧
  served a' = (served a2 ++ (serve ServeMux msg <$> requests events))%list ∧
  ∀ r, ServeMux r = http.ToHandler →
       serve ServeMux msg r = http.Handled (listenForReqsFromLB msg r) ∧
       http.body (listenForReqsFromLB msg r) =
         if String.eqb (http.Method r) "HEAD" then EmptyString
         else if (http.Body r).2 then msg
         else "Error reading request body" ++ newline.
Proof.
  intros Htype Hrun Hothers Hquiet Hack Hquiet' Hevents.
  simpl in Hrun. destruct (conns a !! c) as [k |] eqn:Hk; [| discriminate].
  destruct (conn_read k) as [msgRead |]; [| discriminate].
  destruct (negb (conn_closed k) && _); [| discriminate].
  rewrite (dispatch_applyLBWeights _ _ _ _ Htype) in Hrun. simpl in Hrun.
  injection Hrun as <-.
  rewrite run_app in Hack.
  match type of Hack with
  | match run _ _ ?s _ with _ => _ end = _ => set (a1 := s) in *
  end.
  destruct (run ParseFloat ServeMux a1 between) as [am |] eqn:Hbetween; [| discriminate].
  destruct (run_keeps_weights _ _ _ Hbetween Hquiet) as [Hwm _].
  assert (Hcm := run_other_connection _ _ _ _ Hbetween Hothers).
  subst a1. simpl in Hwm, Hcm. rewrite lookup_insert_eq in Hcm.
  simpl in Hack. rewrite Hcm in Hack. simpl in Hack. injection Hack as <-.
  destruct (run_keeps_weights _ _ _ Hevents Hquiet') as [Hw Hs]. simpl in Hw, Hs.
  rewrite Hwm in Hw, Hs.
  split; [| split; [exact Hw | split; [exact Hs |]]].
  - simpl. rewrite lookup_insert_eq. eexists. split; [reflexivity |]. simpl.
    apply last_snoc.
  - intros r Hr. unfold serve. rewrite Hr. split; [reflexivity |].
    apply listenForReqsFromLB_body.
Qed.

End Correctness.

(** * The theorems at work, and where the specification differs *)

(** ** LB weights *)

(** What the agent serves is not the payload [a:50] of an acknowledged
    [applyLBWeights a:50].  After the acknowledgement a request gets the
    whole message.  A message stored next is served before it is
    acknowledged; so is a message that another connection stores between
    the store and the acknowledgement.  A request whose body cannot be
    read gets the text of the error, a [HEAD] request gets no body, and a
    request with a doubled slash in its path is redirected by the mux. *)
Lemma payload_alone_is_not_served :
  (∃ a',
     run ParseFloat_plain ServeMux_plain oneClient
       [Recv 0 "applyLBWeights a:50"; Run 0 "applyLBWeights a:50" quiet; Send 0;
        Get anyRequest] = Some a' ∧
     conn_sent <$> conns a' !! 0%nat = Some ["Success"] ∧
     bodyOf <$> served a' = [Some "applyLBWeights a:50"] ∧
     "applyLBWeights a:50" ≠ "a:50") ∧
  (∃ a',
     run ParseFloat_plain ServeMux_plain oneClient
       [Recv 0 "applyLBWeights a:50"; Run 0 "applyLBWeights a:50" quiet; Send 0;
        Recv 0 "applyLBWeights a:70"; Run 0 "applyLBWeights a:70" quiet;
        Get anyRequest] = Some a' ∧
     conn_sent <$> conns a' !! 0%nat = Some ["Success"] ∧
     bodyOf <$> served a' = [Some "applyLBWeights a:70"]) ∧
  (∃ a',
     run ParseFloat_plain ServeMux_plain oneClient
       [Accept 1; Recv 0 "applyLBWeights a:50"; Recv 1 "applyLBWeights a:70";
        Run 0 "applyLBWeights a:50" quiet; Run 1 "applyLBWeights a:70" quiet;
        Send 0; Get anyRequest] = Some a' ∧
     conn_sent <$> conns a' !! 0%nat = Some ["Success"] ∧
     conn_sent <$> conns a' !! 1%nat = Some [] ∧
     bodyOf <$> served a' = [Some "applyLBWeights a:70"]) ∧
  (∃ a',
     run ParseFloat_plain ServeMux_plain oneClient
       [Recv 0 "applyLBWeights a:50"; Run 0 "applyLBWeights a:50" quiet; Send 0;
        Get brokenRequest; Get headRequest; Get doubledSlashRequest] = Some a' ∧
     bodyOf <$> served a' =
       [Some ("Error reading request body" ++ newline); Some EmptyString; None] ∧
     statusOf <$> served a' = [200; 200; 301]).
Proof.
  repeat split; try (eexists; split; [vm_compute; reflexivity |]);
    repeat split; try (vm_compute; reflexivity); discriminate.
Qed.

Lemma acknowledged_message_is_served_witness :
  ∃ a1 a2 a',
    step ParseFloat_plain ServeMux_plain oneClient (Recv 0 "applyLBWeights a:50") =
      Some (oneClientRead "applyLBWeights a:50") ∧
    step ParseFloat_plain ServeMux_plain (oneClientRead "applyLBWeights a:50")
      (Run 0 "applyLBWeights a:50" quiet) = Some a1 ∧
    run ParseFloat_plain ServeMux_plain a1 ([Get anyRequest] ++ [Send 0]) = Some a2 ∧
    run ParseFloat_plain ServeMux_plain a2
      [Get anyRequest; Recv 0 "ping"; Get headRequest] = Some a' ∧
    lbWeights a' = "applyLBWeights a:50" ∧
    bodyOf <$> served a' =
      [Some "applyLBWeights a:50"; Some "applyLBWeights a:50"; Some EmptyString].
Proof.
  pose (a1 := default boot
                (step ParseFloat_plain ServeMux_plain (oneClientRead "applyLBWeights a:50")
                   (Run 0 "applyLBWeights a:50" quiet))).
  pose (a2 := default boot
                (run ParseFloat_plain ServeMux_plain a1 ([Get anyRequest] ++ [Send 0]))).
  pose (a' := default boot
                (run ParseFloat_plain ServeMux_plain a2
                   [Get anyRequest; Recv 0 "ping"; Get headRequest])).
  assert (H1 : step ParseFloat_plain ServeMux_plain (oneClientRead "applyLBWeights a:50")
                 (Run 0 "applyLBWeights a:50" quiet) = Some a1)
    by (vm_compute; reflexivity).
  assert (H2 : run ParseFloat_plain ServeMux_plain a1 ([Get anyRequest] ++ [Send 0]) =
               Some a2) by (vm_compute; reflexivity).
  assert (H3 : run ParseFloat_plain ServeMux_plain a2
                 [Get anyRequest; Recv 0 "ping"; Get headRequest] = Some a')
    by (vm_compute; reflexivity).
  destruct (acknowledged_message_is_served ParseFloat_plain ServeMux_plain
              (oneClientRead "applyLBWeights a:50") 0 "applyLBWeights a:50" quiet
              a1 [Get anyRequest] a2 [Get anyRequest; Recv 0 "ping"; Get headRequest] a'
              eq_refl H1)
    as (_ & Hweights & Hserved & _); try assumption.
  - repeat constructor; discriminate.
  - repeat constructor.
  - repeat constructor.
  - exists a1, a2, a'. split; [reflexivity |]. split; [exact H1 |].
    split; [exact H2 |]. split; [exact H3 |]. split; [exact Hweights |].
    rewrite Hserved. vm_compute. reflexivity.
Defined.

(** With the weights [applyLBWeights a:50] stored, a request whose body
    cannot be read is answered with the text of the error, a [HEAD]
    request with no body, and a request with a doubled slash in its path
    with a redirect by the mux, the handler not being called; none gets
    the weights with status 200. *)
Lemma unread_body_is_answered_with_error :
  ∃ a',
    run ParseFloat_plain ServeMux_plain (holding "applyLBWeights a:50")
      [Get brokenRequest; Get headRequest; Get doubledSlashRequest] = Some a' ∧
    lbWeights a' = "applyLBWeights a:50" ∧
    bodyOf <$> served a' =
      [Some ("Error reading request body" ++ newline); Some EmptyString; None] ∧
    statusOf <$> served a' = [200; 200; 301].
Proof.
  eexists. split; [vm_compute; reflexivity |]. repeat split; vm_compute; reflexivity.
Qed.

Lemma weights_endpoint_is_a_getter_witness :
  ∃ w,
    step ParseFloat_plain ServeMux_plain (holding "applyLBWeights a:50") (Get anyRequest) =
      Some {| lbWeights := "applyLBWeights a:50";
              conns := conns (holding "applyLBWeights a:50");
              helperRuns := []; served := [http.Handled w] |} ∧
    http.status w = 200 ∧
    http.body w = "applyLBWeights a:50".
Proof.
  destruct (weights_endpoint_is_a_getter ParseFloat_plain ServeMux_plain
              (holding "applyLBWeights a:50") anyRequest)
    as (answer & Hstep & _ & Hhandled).
  destruct (Hhandled eq_refl) as (w & -> & Hstatus & Hbody).
  exists w. split; [exact Hstep |]. split; [by apply Hstatus | exact Hbody].
Defined.

(** ** Batches *)

(** A batch of two writes of which the second fails: the answer is
    [Failure] and the first write has been made. *)
Lemma failed_batch_leaves_a_write :
  let o := dispatch ParseFloat_plain (readonly (kubepods ++ "ub/cpu.shares")) twoPods
             EmptyString "applyCPUShares a:1 b:2" in
  out_response o = "Failure" ∧
  out_execs o =
    [ {| exec_value := "1"; exec_file := kubepods ++ "ua/cpu.shares"; exec_ok := true |};
      {| exec_value := "2"; exec_file := kubepods ++ "ub/cpu.shares"; exec_ok := false |} ].
Proof. split; vm_compute; reflexivity. Qed.

Lemma failed_batch_stops_without_rollback_witness :
  let w := readonly (kubepods ++ "ub/cpu.shares") in
  let o := dispatch ParseFloat_plain w twoPods EmptyString "applyCPUShares a:1 b:2" in
  batchCommand "applyCPUShares a:1 b:2" "/cpu.shares" ∧
  out_response o = "Failure" ∧
  out_execs o = [runOf twoPods "/cpu.shares" true ("a", "1");
                 runOf twoPods "/cpu.shares" false ("b", "2")].
Proof.
  intros w o.
  assert (Hbatch : batchCommand "applyCPUShares a:1 b:2" "/cpu.shares")
    by (left; split; reflexivity).
  split; [exact Hbatch |].
  apply (proj2 (failed_batch_stops_without_rollback ParseFloat_plain w twoPods EmptyString
                  "applyCPUShares a:1 b:2" "/cpu.shares" Hbatch)
           [("a", "1")] ("b", "2") []).
  - vm_compute; reflexivity.
  - vm_compute; reflexivity.
  - repeat constructor.
  - vm_compute; reflexivity.
Defined.

(** A batch for a pod the session map does not know, on a node where the
    helper succeeds: the answer is [Success]. *)
Lemma unknown_pod_command_succeeds :
  let o := dispatch ParseFloat_plain quiet ∅ EmptyString "applyCPUQuotas ghost:5" in
  (∅ : gmap string string) !! "ghost" = None ∧
  out_response o = "Success" ∧
  out_execs o =
    [ {| exec_value := "5"; exec_file := kubepods ++ "/cpu.cfs_quota_us";
         exec_ok := true |} ].
Proof. split; [reflexivity |]. split; vm_compute; reflexivity. Qed.

Lemma unknown_pod_is_written_under_kubepods_witness :
  let msg := "applyCPUShares a:1 ghost:7" in
  let stuck := readonly (kubepods ++ "/cpu.shares") in
  twoPods !! "ghost" = None ∧
  (out_response (dispatch ParseFloat_plain quiet twoPods EmptyString msg) = "Success" ∧
   {| exec_value := "7"; exec_file := kubepods ++ "/cpu.shares"; exec_ok := true |}
     ∈ out_execs (dispatch ParseFloat_plain quiet twoPods EmptyString msg)) ∧
  out_response (dispatch ParseFloat_plain stuck twoPods EmptyString msg) = "Failure".
Proof.
  intros msg stuck.
  assert (Hbatch : batchCommand msg "/cpu.shares") by (left; split; reflexivity).
  assert (Hparse : (parsePodShares ParseFloat_plain msg).2 = true)
    by (vm_compute; reflexivity).
  assert (Hnamed : (parsePodShares ParseFloat_plain msg).1 !! "ghost" = Some "7")
    by (vm_compute; reflexivity).
  assert (Hunknown : twoPods !! "ghost" = None) by reflexivity.
  split; [exact Hunknown |]. split.
  - assert (Hrange : range_complete quiet) by (intros n m; reflexivity).
    destruct (unknown_pod_is_written_under_kubepods ParseFloat_plain quiet twoPods
                EmptyString msg "/cpu.shares" "ghost" "7"
                Hrange Hbatch Hparse Hnamed Hunknown)
      as (_ & _ & Hrun).
    assert (Hok : out_response (dispatch ParseFloat_plain quiet twoPods EmptyString msg)
                  = "Success") by (vm_compute; reflexivity).
    split; [exact Hok | exact (Hrun Hok)].
  - assert (Hrange : range_complete stuck) by (intros n m; reflexivity).
    destruct (unknown_pod_is_written_under_kubepods ParseFloat_plain stuck twoPods
                EmptyString msg "/cpu.shares" "ghost" "7"
                Hrange Hbatch Hparse Hnamed Hunknown)
      as (Hfail & _ & _).
    apply Hfail. exists "ghost", "7". split; vm_compute; reflexivity.
Defined.

Lemma bad_payload_fails_before_any_write_witness :
  let o := dispatch ParseFloat_plain quiet twoPods EmptyString "applyCPUQuotas a:1 b:x" in
  ParseFloat_plain "x" = None ∧ out_response o = "Failure" ∧ out_execs o = [].
Proof.
  intros o. split; [reflexivity |].
  apply (bad_payload_fails_before_any_write ParseFloat_plain quiet twoPods EmptyString
           "applyCPUQuotas a:1 b:x").
  - right. reflexivity.
  - apply Exists_cons_tl, Exists_cons_hd. right. reflexivity.
Defined.

(** Four runs of [applyCPUShares].  The share [-2.5] is written as [-2],
    and its floor is [-3].  Of two entries for one pod only the value of
    the later one is passed to the helper.  Two pods the session map does
    not know share one file, which is passed the values of both.  And the
    share [10000000000000000000], a whole number above [int64], is written
    as the least [int64]. *)
Lemma negative_share_is_not_floored :
  let execs msg := out_execs (dispatch ParseFloat_plain quiet twoPods EmptyString msg) in
  (execs "applyCPUShares a:-2.5" =
     [ {| exec_value := "-2"; exec_file := kubepods ++ "ua/cpu.shares"; exec_ok := true |} ] ∧
   fmt.Sprintf_d <$> (float64.floor <$> ParseFloat_plain "-2.5") = Some "-3") ∧
  (payload "applyCPUShares a:1 a:2" = ["a:1"; "a:2"] ∧
   execs "applyCPUShares a:1 a:2" =
     [ {| exec_value := "2"; exec_file := kubepods ++ "ua/cpu.shares"; exec_ok := true |} ]) ∧
  (twoPods !! "x" = None ∧ twoPods !! "y" = None ∧
   execs "applyCPUShares x:1 y:2" =
     [ {| exec_value := "2"; exec_file := kubepods ++ "/cpu.shares"; exec_ok := true |};
       {| exec_value := "1"; exec_file := kubepods ++ "/cpu.shares"; exec_ok := true |} ]) ∧
  (float64.trunc <$> ParseFloat_plain "10000000000000000000" = Some (10 ^ 19) ∧
   float64.is_finite <$> ParseFloat_plain "10000000000000000000" = Some true ∧
   execs "applyCPUShares a:10000000000000000000" =
     [ {| exec_value := "-9223372036854775808"; exec_file := kubepods ++ "ua/cpu.shares";
          exec_ok := true |} ]).
Proof. intros execs. repeat split; vm_compute; reflexivity. Qed.

Lemma shares_are_cut_toward_zero_witness :
  let msg := "applyCPUShares a:1 b:-7.9 a:2.5" in
  let o := dispatch ParseFloat_plain quiet twoPods EmptyString msg in
  payload msg = ["a:1"; "b:-7.9"; "a:2.5"] ∧
  (∀ run, run ∈ out_execs o → exec_file run = kubepods ++ "ua/cpu.shares" →
          exec_value run = "2") ∧
  {| exec_value := "2"; exec_file := kubepods ++ "ua/cpu.shares"; exec_ok := true |}
    ∈ out_execs o ∧
  float64.to_int64 <$> ParseFloat_plain "2.5" = Some 2 ∧
  float64.floor <$> ParseFloat_plain "2.5" = Some 2.
Proof.
  intros msg o.
  assert (Hpayload : payload msg = (["a:1"; "b:-7.9"] ++ "a:2.5" :: [])%list)
    by (vm_compute; reflexivity).
  split; [exact Hpayload |].
  destruct (ParseFloat_plain "2.5") as [share |] eqn:Hshare; [| discriminate Hshare].
  destruct (shares_are_cut_toward_zero ParseFloat_plain quiet twoPods EmptyString msg
              ["a:1"; "b:-7.9"] "a:2.5" [] "a" "2.5" share)
    as (Hruns & Hrun & Hcut).
  - intros n m. reflexivity.
  - reflexivity.
  - exact Hpayload.
  - reflexivity.
  - exact Hshare.
  - constructor.
  - intros e He Hfile. rewrite Hpayload in He.
    apply list_elem_of_In in He. simpl in He.
    destruct He as [<- | [<- | [<- | []]]];
      first [reflexivity | vm_compute in Hfile; discriminate Hfile].
  - assert (Hvalue : fmt.Sprintf_d (float64.to_int64 share) = "2").
    { injection Hshare as <-. vm_compute. reflexivity. }
    rewrite Hvalue in Hruns, Hrun.
    split; [exact Hruns |]. split.
    + apply Hrun. vm_compute. reflexivity.
    + destruct Hcut as [Hint Hfloor].
      * injection Hshare as <-. vm_compute. reflexivity.
      * injection Hshare as <-. vm_compute. reflexivity.
      * simpl. rewrite Hint, <- Hfloor.
        -- split; f_equal; injection Hshare as <-; vm_compute; reflexivity.
        -- injection Hshare as <-. vm_compute. reflexivity.
Defined.

(** ** Session map and message types *)

Lemma updatePods_replaces_session_map_witness :
  let o := dispatch ParseFloat_plain quiet twoPods EmptyString "updatePods a:u1 c:u3 a:u2" in
  let o' := dispatch ParseFloat_plain quiet twoPods EmptyString "updatePods a:u1 c" in
  (out_response o = "Success" ∧
   ∀ name, out_podUIDs o !! name = lastValue name [("a", "u1"); ("c", "u3"); ("a", "u2")]) ∧
  (out_response o' = "Failure" ∧ out_podUIDs o' = twoPods).
Proof.
  intros o o'. split.
  - apply (proj1 (updatePods_replaces_session_map ParseFloat_plain quiet twoPods EmptyString
                    "updatePods a:u1 c:u3 a:u2" eq_refl)).
    repeat constructor.
  - apply (proj2 (updatePods_replaces_session_map ParseFloat_plain quiet twoPods EmptyString
                    "updatePods a:u1 c" eq_refl)).
    intros Hall. apply Forall_cons in Hall as [_ Hall]. apply Forall_cons in Hall as [Hc _].
    discriminate Hc.
Defined.

Lemma unknown_message_and_read_error_witness :
  (msgTypeOf "ping" ∉ knownTypes) ∧
  processClient ParseFloat_plain
    [ReadMsg "ping" quiet; ReadMsg "updatePods a:ua" quiet] EmptyString =
    {| podUIDs := {[ "a" := "ua" ]}; weights := EmptyString; execs := [];
       sent := ["Unknown message type"; "Success"]; closed := false |} ∧
  processClient ParseFloat_plain [ReadError; ReadMsg "ping" quiet] EmptyString =
    hungUp (newSession EmptyString).
Proof.
  assert (Hping : msgTypeOf "ping" ∉ knownTypes).
  { unfold knownTypes. rewrite !not_elem_of_cons. repeat split; try discriminate.
    apply not_elem_of_nil. }
  split; [exact Hping |].
  destruct (unknown_message_and_read_error ParseFloat_plain (newSession EmptyString)
              "ping" quiet [ReadMsg "updatePods a:ua" quiet] Hping) as [Hmsg _].
  destruct (unknown_message_and_read_error ParseFloat_plain (newSession EmptyString)
              "ping" quiet [ReadMsg "ping" quiet] Hping) as [_ Herr].
  split.
  - unfold processClient. rewrite Hmsg. vm_compute. reflexivity.
  - exact Herr.
Defined.

(** ** CPU utilizations *)

(** C2, on a failing input. Pod [b] cannot be read in the second capture:
    what is reported for it is the sentinel minus the first reading, over
    the elapsed time, and not the sentinel; pod [a] is reported as it is
    without [b]. *)
Theorem failed_second_read_reports_no_sentinel :
  getPodCPUUtil (reading secondReadFails) 1 "ub" = -1 ∧
  getCPUUtilizations (reading secondReadFails) twoPods =
    "utils: a:40.000000 b:-0.005001" ∧
  getCPUUtilizations (reading secondReadFails) {[ "a" := "ua" ]} = "utils: a:40.000000".
Proof. repeat split; vm_compute; reflexivity. Qed.

(** C8, on a failing input. A usage file is found empty in the second
    capture: the percentage reported is negative and is not the sentinel. *)
Theorem negative_percentage_other_than_sentinel :
  getPodCPUUtil (reading secondReadEmpty) 0 "u" = 2000000 ∧
  getPodCPUUtil (reading secondReadEmpty) 1 "u" = -1 ∧
  getCPUUtilizations (reading secondReadEmpty) {[ "p" := "u" ]} = "utils: p:-2.000001".
Proof. repeat split; vm_compute; reflexivity. Qed.

(** * Further properties of the handlers *)

(** ** How a message is cut *)

Lemma Split_cons s sep : ∃ f fs, strings.Split s sep = f :: fs.
Proof.
  destruct s as [| c s]; simpl; [by eexists _, _ |].
  destruct (Ascii.eqb c sep); [by eexists _, _ |].
  destruct (strings.Split s sep); by eexists _, _.
Qed.

Lemma Split_joined s sep :
  ∀ f fs, strings.Split s sep = f :: fs → s = f ++ joined sep fs.
Proof.
  induction s as [| c s IH]; simpl; intros f fs Hsplit.
  - by injection Hsplit as <- <-.
  - destruct (Split_cons s sep) as (g & gs & Hg). rewrite Hg in Hsplit.
    specialize (IH _ _ Hg).
    destruct (Ascii.eqb c sep) eqn:Hc; injection Hsplit as <- <-.
    + apply Ascii.eqb_eq in Hc as ->.
      change (String sep s = String sep (g ++ joined sep gs)). by f_equal.
    + change (String c s = String c (g ++ joined sep gs)). by f_equal.
Qed.

Lemma Split_free s sep : Forall (free sep) (strings.Split s sep).
Proof.
  induction s as [| c s IH]; simpl; [by repeat constructor |].
  destruct (Ascii.eqb c sep) eqn:Hc; [by constructor |].
  destruct (strings.Split s sep) as [| g gs].
  - repeat constructor. unfold free. simpl. by rewrite (Ascii.eqb_sym sep c), Hc.
  - inversion IH as [| ? ? Hg Hgs]; subst. constructor; [| assumption].
    unfold free in *. simpl. by rewrite (Ascii.eqb_sym sep c), Hc, Hg.
Qed.

Lemma Split_keeps_free c s sep :
  free c s → Forall (free c) (strings.Split s sep).
Proof.
  unfold free. induction s as [| d s IH]; simpl; intros Hfree; [by repeat constructor |].
  apply orb_false_iff in Hfree as [Hd Hs]. specialize (IH Hs).
  destruct (Ascii.eqb d sep); [by constructor |].
  destruct (strings.Split s sep) as [| g gs].
  - repeat constructor. simpl. by rewrite Hd.
  - inversion IH as [| ? ? Hg Hgs]; subst. constructor; [| assumption].
    simpl. by rewrite Hd, Hg.
Qed.

Lemma Split_trailing s sep :
  strings.Split (s ++ String sep EmptyString) sep =
    (strings.Split s sep ++ [EmptyString])%list.
Proof.
  induction s as [| c s IH]; simpl.
  - by rewrite Ascii.eqb_refl.
  - rewrite IH. destruct (Ascii.eqb c sep); [reflexivity |].
    destruct (Split_cons s sep) as (g & gs & ->). reflexivity.
Qed.

Lemma message_parts msg :
  free " " (msgTypeOf msg) ∧ Forall (free " ") (payload msg).
Proof.
  unfold msgTypeOf, payload.
  destruct (Split_cons msg " ") as (f & fs & Hsplit).
  assert (Hfree := Split_free msg " "). rewrite Hsplit in *. simpl.
  by inversion Hfree.
Qed.

(** X1. A message is its command word followed by its entries, each
    preceded by one space; neither the command word nor an entry holds a
    space, so the first space ends the command word. *)
Theorem message_is_word_and_entries msg :
  msg = msgTypeOf msg ++ joined " " (payload msg) ∧
  free " " (msgTypeOf msg) ∧ Forall (free " ") (payload msg).
Proof.
  unfold msgTypeOf, payload.
  destruct (Split_cons msg " ") as (f & fs & Hsplit).
  assert (Hfree := Split_free msg " "). rewrite Hsplit in *. simpl.
  inversion Hfree; subst. split; [by apply Split_joined | by split].
Qed.

(** ** What the commands leave alone *)

(** X2. A command changes only what is its own: the session map changes on
    [updatePods] alone, the LB weights on [applyLBWeights] alone, and the
    write helper runs for [applyCPUShares] and [applyCPUQuotas] alone. *)
Theorem commands_keep_to_their_own_state ParseFloat w podUIDs lbWeights msg :
  let o := dispatch ParseFloat w podUIDs lbWeights msg in
  (msgTypeOf msg ≠ "updatePods" → out_podUIDs o = podUIDs) ∧
  (msgTypeOf msg ≠ "applyLBWeights" → out_weights o = lbWeights) ∧
  (msgTypeOf msg ≠ "applyCPUShares" → msgTypeOf msg ≠ "applyCPUQuotas" →
     out_execs o = []).
Proof.
  intros o. subst o. unfold dispatch.
  destruct (String.eqb_spec (msgTypeOf msg) "updatePods") as [H1 | H1].
  { destruct (getNewPods msg) as [m ok]. simpl.
    repeat split; try done. }
  destruct (String.eqb_spec (msgTypeOf msg) "applyLBWeights") as [H2 | H2].
  { simpl. repeat split; try done. }
  destruct (String.eqb_spec (msgTypeOf msg) "applyCPUShares") as [H3 | H3].
  { destruct (applyCPUShares ParseFloat w podUIDs msg). simpl. repeat split; try done. }
  destruct (String.eqb_spec (msgTypeOf msg) "applyCPUQuotas") as [H4 | H4].
  { destruct (applyCPUQuotas ParseFloat w podUIDs msg). simpl. repeat split; try done. }
  destruct (String.eqb (msgTypeOf msg) "getCPUUtilizations"); simpl; repeat split; done.
Qed.

Lemma commands_keep_to_their_own_state_witness :
  let o := dispatch ParseFloat_plain quiet twoPods "applyLBWeights a:50"
             "getCPUUtilizations" in
  out_podUIDs o = twoPods ∧ out_weights o = "applyLBWeights a:50" ∧ out_execs o = [].
Proof.
  intros o.
  destruct (commands_keep_to_their_own_state ParseFloat_plain quiet twoPods
              "applyLBWeights a:50" "getCPUUtilizations") as (Hmap & Hweights & Hruns).
  split; [by apply Hmap |]. split; [by apply Hweights | by apply Hruns].
Defined.

Lemma dispatch_podUIDs ParseFloat w podUIDs lbWeights msg :
  out_podUIDs (dispatch ParseFloat w podUIDs lbWeights msg) = podUIDs ∨
  (msgTypeOf msg = "updatePods" ∧ (getNewPods msg).2 = true ∧
   out_podUIDs (dispatch ParseFloat w podUIDs lbWeights msg) = (getNewPods msg).1).
Proof.
  unfold dispatch.
  destruct (String.eqb_spec (msgTypeOf msg) "updatePods") as [H1 | H1].
  { destruct (getNewPods msg) as [m [|]]; simpl; [right | left]; done. }
  left.
  repeat match goal with
         | |- context [if ?b then _ else _] => destruct b
         | |- context [let '(_, _) := ?p in _] => destruct p
         end; reflexivity.
Qed.

(** ** The session map *)

Lemma getNewPods_plain msg name uid :
  (getNewPods msg).2 = true →
  (getNewPods msg).1 !! name = Some uid →
  plain name ∧ plain uid.
Proof.
  unfold getNewPods. fold (payload msg). intros Hok Hlook.
  destruct (decide (Forall (converted keep) (payload msg))) as [Hall | Hnot].
  - destruct (scans_all _ _ getNewPods_scans _ Hall ∅) as (m & Hm & Hvalue).
    rewrite Hm in Hlook. simpl in Hlook. rewrite Hvalue, lookup_empty in Hlook.
    assert (Hlast : lastValue name (binding keep <$> payload msg) = Some uid)
      by (by destruct (lastValue name _)).
    apply lastValue_elem, list_elem_of_fmap in Hlast as (entry & Hbind & Hentry).
    rewrite binding_keep in Hbind.
    rewrite Forall_forall in Hall. destruct (Hall entry Hentry) as [Htwo _].
    apply twoFields_fields in Htwo. rewrite <- Hbind in Htwo. simpl in Htwo.
    destruct (message_parts msg) as [_ Hfree].
    rewrite Forall_forall in Hfree. specialize (Hfree entry Hentry).
    assert (Hcolon := Split_free entry ":").
    assert (Hspace := Split_keeps_free " " entry ":" Hfree).
    rewrite Htwo in Hcolon, Hspace.
    inversion Hcolon as [| ? ? Hc1 Hc2]; subst. inversion Hc2; subst.
    inversion Hspace as [| ? ? Hs1 Hs2]; subst. inversion Hs2; subst.
    by repeat split.
  - apply not_Forall_Exists in Hnot; [| apply _].
    rewrite (scans_some_bad _ _ getNewPods_scans _ Hnot ∅) in Hok. discriminate.
Qed.

Lemma processClient_loop_plain ParseFloat reads :
  ∀ s,
    (∀ name uid, podUIDs s !! name = Some uid → plain name ∧ plain uid) →
    ∀ name uid, podUIDs (processClient_loop ParseFloat reads s) !! name = Some uid →
                plain name ∧ plain uid.
Proof.
  induction reads as [| [msg w |] rest IH]; intros s Hs; simpl; try exact Hs.
  apply IH. unfold turn. simpl. intros name uid.
  destruct (dispatch_podUIDs ParseFloat w (podUIDs s) (weights s) msg)
    as [-> | (_ & Hok & ->)]; [apply Hs | by apply getNewPods_plain].
Qed.

(** X3. Whatever the controller sends, no pod name and no UID of the
    session map ever holds a space or a colon. *)
Theorem session_map_holds_plain_names ParseFloat reads lbWeights' name uid :
  podUIDs (processClient ParseFloat reads lbWeights') !! name = Some uid →
  plain name ∧ plain uid.
Proof.
  apply processClient_loop_plain. intros n u Hlook. simpl in Hlook.
  by rewrite lookup_empty in Hlook.
Qed.

Lemma session_map_holds_plain_names_witness :
  podUIDs (processClient ParseFloat_plain
             [ReadMsg "updatePods a:u/1 b:u2" quiet; ReadMsg "updatePods a:x:y" quiet]
             EmptyString) !! "a" = Some "u/1" ∧
  plain "a" ∧ plain "u/1".
Proof.
  assert (Hlook : podUIDs (processClient ParseFloat_plain
             [ReadMsg "updatePods a:u/1 b:u2" quiet; ReadMsg "updatePods a:x:y" quiet]
             EmptyString) !! "a" = Some "u/1") by (vm_compute; reflexivity).
  split; [exact Hlook |].
  exact (session_map_holds_plain_names ParseFloat_plain _ _ _ _ Hlook).
Defined.

(** ** Entries that are empty *)

Lemma payload_trailing_space m : EmptyString ∈ payload (m ++ " ").
Proof.
  unfold payload. rewrite Split_trailing.
  destruct (Split_cons m " ") as (f & fs & ->). simpl.
  apply elem_of_app. right. by left.
Qed.

Lemma empty_entry_not_twoFields : ¬ twoFields EmptyString.
Proof. discriminate. Qed.

(** X4. An [updatePods], [applyCPUShares] or [applyCPUQuotas] message with
    an empty entry, which is what a space at the end of the message or two
    spaces in a row make, is answered [Failure]; it changes neither the
    session map nor the weights and runs no write. *)
Theorem empty_entry_is_rejected ParseFloat w podUIDs lbWeights msg :
  msgTypeOf msg = "updatePods" ∨ msgTypeOf msg = "applyCPUShares" ∨
  msgTypeOf msg = "applyCPUQuotas" →
  EmptyString ∈ payload msg →
  dispatch ParseFloat w podUIDs lbWeights msg =
    {| out_podUIDs := podUIDs; out_weights := lbWeights; out_execs := [];
       out_response := "Failure" |}.
Proof.
  intros Htype Hempty.
  destruct Htype as [Htype | Htype].
  - rewrite (dispatch_updatePods _ _ _ _ _ Htype).
    unfold getNewPods. fold (payload msg).
    rewrite (scans_some_bad _ _ getNewPods_scans (payload msg)); [reflexivity |].
    apply Exists_exists. exists EmptyString. split; [exact Hempty |].
    intros [Htwo _]. by apply empty_entry_not_twoFields.
  - assert (Hbad : (parsePodShares ParseFloat msg).2 = false).
    { apply parsePodShares_false, Exists_exists. exists EmptyString.
      split; [exact Hempty | left; apply empty_entry_not_twoFields]. }
    assert (Hbatch : ∃ file, batchCommand msg file).
    { destruct Htype as [H | H]; eexists; [left | right]; split;
        first [exact H | reflexivity]. }
    destruct Hbatch as [file Hbatch].
    by rewrite (dispatch_batch _ _ _ _ _ _ Hbatch), Hbad.
Qed.

Lemma empty_entry_is_rejected_witness :
  EmptyString ∈ payload "updatePods a:ua " ∧
  dispatch ParseFloat_plain quiet twoPods EmptyString "updatePods a:ua " =
    {| out_podUIDs := twoPods; out_weights := EmptyString; out_execs := [];
       out_response := "Failure" |}.
Proof.
  assert (Hempty : EmptyString ∈ payload "updatePods a:ua ")
    by apply (payload_trailing_space "updatePods a:ua").
  split; [exact Hempty |].
  apply empty_entry_is_rejected; [by left | exact Hempty].
Defined.

(** ** The loop of a connection *)

Lemma processClient_loop_sent ParseFloat reads :
  ∀ s, length (sent (processClient_loop ParseFloat reads s)) =
       (length (sent s) + length (beforeError reads))%nat.
Proof.
  induction reads as [| [msg w |] rest IH]; intros s; simpl; [lia | | lia].
  rewrite IH. unfold turn. simpl. rewrite length_app. simpl. lia.
Qed.

Lemma processClient_loop_closed ParseFloat reads :
  ∀ s, closed s = false →
       closed (processClient_loop ParseFloat reads s) = existsb isError reads.
Proof.
  induction reads as [| [msg w |] rest IH]; intros s Hopen; simpl;
    [exact Hopen | | reflexivity].
  by apply IH.
Qed.

(** X5. The handler of a connection sends exactly one response for every
    message it reads before the first read error and none after; the
    connection is closed in the end exactly when a read failed. *)
Theorem one_response_per_message ParseFloat reads lbWeights' :
  length (sent (processClient ParseFloat reads lbWeights')) =
    length (beforeError reads) ∧
  closed (processClient ParseFloat reads lbWeights') = existsb isError reads.
Proof.
  unfold processClient. split.
  - by rewrite processClient_loop_sent.
  - by rewrite processClient_loop_closed.
Qed.

(** ** The response to [getCPUUtilizations] *)

Lemma append_assoc (a b c : string) : (a ++ b) ++ c = a ++ b ++ c.
Proof.
  induction a as [| x a IH]; [reflexivity |].
  change (String x ((a ++ b) ++ c) = String x (a ++ b ++ c)). by f_equal.
Qed.

Lemma append_nil_r (a : string) : a ++ EmptyString = a.
Proof.
  induction a as [| x a IH]; [reflexivity |].
  change (String x (a ++ EmptyString) = String x a). by f_equal.
Qed.

Lemma foldl_append {B} (g : B → string) (l : list B) :
  ∀ acc, foldl (λ r e, r ++ g e) acc l = acc ++ concatenated (g <$> l).
Proof.
  induction l as [| e l IH]; intros acc.
  - simpl. by rewrite append_nil_r.
  - rewrite fmap_cons. cbn [foldl concatenated]. rewrite IH. apply append_assoc.
Qed.

(** The response starts with [utils:], whatever the world. *)
Lemma getCPUUtilizations_prefix w podUIDs :
  ∃ rest, getCPUUtilizations w podUIDs = "utils:" ++ rest.
Proof.
  unfold getCPUUtilizations.
  set (initial := capture w 0 _). set (final := capture w 1 _).
  set (elapsed := wrap64 _).
  exists (concatenated
            ((λ e, " " ++ e.1 ++ ":" ++
                   fmt_f.Sprintf_f (percentage (index64 initial e.1) (index64 final e.1)
                                               elapsed))
               <$> range_order w 2 podUIDs)).
  rewrite <- foldl_append. apply foldl_agree. by intros r [podName uid] _.
Qed.

(** X7. Every response of the agent to a message is [Success], [Failure],
    [Unknown message type] or, to [getCPUUtilizations] only, a text that
    starts with [utils:]. *)
Theorem responses_of_the_agent ParseFloat w podUIDs lbWeights msg :
  let response := out_response (dispatch ParseFloat w podUIDs lbWeights msg) in
  response = "Success" ∨ response = "Failure" ∨ response = "Unknown message type" ∨
  (msgTypeOf msg = "getCPUUtilizations" ∧ ∃ rest, response = "utils:" ++ rest).
Proof.
  unfold dispatch.
  destruct (String.eqb (msgTypeOf msg) "updatePods").
  { destruct (getNewPods msg) as [m [|]]; simpl; auto. }
  destruct (String.eqb (msgTypeOf msg) "applyLBWeights"); [simpl; auto |].
  destruct (String.eqb (msgTypeOf msg) "applyCPUShares").
  { destruct (applyCPUShares ParseFloat w podUIDs msg) as [[|] runs]; simpl; auto. }
  destruct (String.eqb (msgTypeOf msg) "applyCPUQuotas").
  { destruct (applyCPUQuotas ParseFloat w podUIDs msg) as [[|] runs]; simpl; auto. }
  destruct (String.eqb_spec (msgTypeOf msg) "getCPUUtilizations") as [Htype | _];
    simpl; [| auto].
  do 3 right. split; [exact Htype | apply getCPUUtilizations_prefix].
Qed.

Lemma getCPUUtilizations_wire w podUIDs :
  range_complete w →
  getCPUUtilizations w podUIDs =
    "utils:" ++ concatenated (utilization w <$> range_order w 2 podUIDs).
Proof.
  intros Hrange. rewrite (getCPUUtilizations_by_pod _ _ Hrange).
  rewrite <- foldl_append. apply foldl_agree. by intros r [podName uid] _.
Qed.

(** X8. The response to [getCPUUtilizations] is [utils:] followed, for
    every pod of the session map once and in the order the map is walked,
    by a space, the pod name, a colon and a percentage; the percentage of
    a pod is computed from the two readings of the usage file of its own
    UID and from the elapsed time, and from nothing else. *)
Theorem utilizations_on_the_wire w podUIDs :
  range_complete w →
  getCPUUtilizations w podUIDs =
    "utils:" ++ concatenated (utilization w <$> range_order w 2 podUIDs) ∧
  range_order w 2 podUIDs ≡ₚ map_to_list podUIDs.
Proof.
  intros Hrange. split; [by apply getCPUUtilizations_wire | apply Hrange].
Qed.

Lemma utilizations_on_the_wire_witness :
  range_complete (reading secondReadFails) ∧
  getCPUUtilizations (reading secondReadFails) twoPods =
    "utils:" ++ utilization (reading secondReadFails) ("a", "ua")
             ++ utilization (reading secondReadFails) ("b", "ub").
Proof.
  assert (Hrange : range_complete (reading secondReadFails))
    by (intros n m; reflexivity).
  split; [exact Hrange |].
  rewrite (proj1 (utilizations_on_the_wire _ twoPods Hrange)).
  vm_compute. reflexivity.
Defined.

(** X9. [getCPUUtilizations] looks at the node only through the usage
    files of the UIDs in the session map (and the clock): two nodes that
    agree on these files give the same response. *)
Theorem utilizations_read_only_known_pods w w' podUIDs :
  range_complete w → range_complete w' →
  range_order w' 2 podUIDs = range_order w 2 podUIDs →
  now w' 0%nat = now w 0%nat → now w' 1%nat = now w 1%nat →
  (∀ k name uid, podUIDs !! name = Some uid →
     cat w' k (kubepods ++ uid ++ "/cpuacct.usage") =
     cat w k (kubepods ++ uid ++ "/cpuacct.usage")) →
  getCPUUtilizations w' podUIDs = getCPUUtilizations w podUIDs.
Proof.
  intros Hrange Hrange' Horder Hnow0 Hnow1 Hcat.
  rewrite (getCPUUtilizations_wire _ _ Hrange), (getCPUUtilizations_wire _ _ Hrange').
  rewrite Horder. f_equal. f_equal. apply list_fmap_ext.
  intros i [name uid] Hin. apply list_elem_of_lookup_2 in Hin.
  rewrite (Hrange 2%nat) in Hin. apply elem_of_map_to_list in Hin.
  unfold utilization, getPodCPUUtil, getOSFile. simpl.
  by rewrite !(Hcat _ name uid Hin), Hnow0, Hnow1.
Qed.

Lemma utilizations_read_only_known_pods_witness :
  getCPUUtilizations (reading secondReadFails) {[ "a" := "ua" ]} =
  getCPUUtilizations
    (reading (λ k path, if String.eqb path (kubepods ++ "ua/cpuacct.usage")
                        then secondReadFails k path else ("junk", false)))
    {[ "a" := "ua" ]}.
Proof.
  apply utilizations_read_only_known_pods; try reflexivity;
    try (intros n m; reflexivity).
  intros k name uid Hlook.
  apply lookup_singleton_Some in Hlook as [<- <-]. reflexivity.
Defined.

(** ** The sign of a percentage *)

Lemma binary_round_aux_sign prec emax m e l :
  float64.signbit (binary_round_aux prec emax false m e l) = false.
Proof.
  unfold binary_round_aux.
  destruct (shr_fexp prec emax m e l) as [mrs' e'].
  destruct (shr_fexp prec emax _ e' loc_Exact) as [mrs'' e''].
  destruct (shr_m mrs''); simpl; [reflexivity | | reflexivity].
  by destruct (Z.leb e'' (emax - prec)).
Qed.

Lemma of_int_sign z : 0 ≤ z → float64.signbit (float64.of_int z) = false.
Proof.
  destruct z as [| p | p]; intros Hz; [reflexivity | | lia].
  unfold float64.of_int, binary_normalize, binary_round.
  destruct (shl_align _ _ _) as [mz ez]. apply binary_round_aux_sign.
Qed.

Lemma div_sign x y :
  float64.signbit x = false → float64.signbit y = false →
  float64.signbit (float64.div x y) = false.
Proof.
  unfold float64.div.
  destruct x as [sx | sx | | sx mx ex], y as [sy | sy | | sy my ey]; simpl;
    intros Hx Hy; subst; try reflexivity.
  destruct (SFdiv_core_binary _ _ _ _ _ _) as [[mz ez] lz].
  apply binary_round_aux_sign.
Qed.

Lemma mul_sign x y :
  float64.signbit x = false → float64.signbit y = false →
  float64.signbit (float64.mul x y) = false.
Proof.
  unfold float64.mul.
  destruct x as [sx | sx | | sx mx ex], y as [sy | sy | | sy my ey]; simpl;
    intros Hx Hy; subst; try reflexivity.
  apply binary_round_aux_sign.
Qed.

Lemma unsigned_decimal_head z :
  ∃ c rest, fmt_f.unsigned_decimal z = String c rest ∧ c ≠ "-"%char.
Proof.
  unfold fmt_f.unsigned_decimal.
  destruct (N.to_uint (Z.to_N z)); simpl; eexists _, _; (split; [reflexivity | discriminate]).
Qed.

Lemma Sprintf_f_sign f :
  float64.signbit f = false → ∀ rest, fmt_f.Sprintf_f f ≠ String "-" rest.
Proof.
  destruct f as [s | s | | s m e]; simpl; intros Hs rest; subst; try discriminate.
  unfold fmt_f.fixed6.
  destruct (unsigned_decimal_head (fmt_f.scaled6 m e / 10 ^ 6)) as (c & r & -> & Hc).
  simpl. intros [= Heq _]. by apply Hc.
Qed.

Lemma wrap64_fits z : int64_min ≤ z ≤ int64_max → wrap64 z = z.
Proof.
  unfold wrap64, int64_min, int64_max. intros Hz.
  rewrite Z.mod_small by lia. lia.
Qed.

(** X10. When the two readings of a pod are usage values, the one after
    the sleep not below the one before it, and the clock has not gone back
    between the captures, the percentage computed is not negative, and
    what is printed for it does not start with a minus sign. *)
Theorem steady_readings_give_no_negative_percentage initial final t0 t1 :
  0 ≤ initial ≤ final → final ≤ int64_max →
  0 ≤ t0 ≤ t1 → t1 ≤ int64_max →
  float64.signbit (percentage initial final (wrap64 (t1 - t0))) = false ∧
  ∀ rest, fmt_f.Sprintf_f (percentage initial final (wrap64 (t1 - t0))) ≠ String "-" rest.
Proof.
  intros Husage Hfinal Hclock Ht1.
  assert (Hdelta : wrap64 (final - initial) = final - initial)
    by (apply wrap64_fits; unfold int64_min, int64_max in *; lia).
  assert (Helapsed : wrap64 (t1 - t0) = t1 - t0)
    by (apply wrap64_fits; unfold int64_min, int64_max in *; lia).
  assert (Hsign : float64.signbit (percentage initial final (wrap64 (t1 - t0))) = false).
  { unfold percentage. rewrite Hdelta, Helapsed.
    apply mul_sign; [apply div_sign |]; apply of_int_sign; lia. }
  split; [exact Hsign | by apply Sprintf_f_sign].
Qed.

Lemma steady_readings_give_no_negative_percentage_witness :
  fmt_f.Sprintf_f (percentage 1000000 41000000 (wrap64 (100000000 - 0))) = "40.000000" ∧
  float64.signbit (percentage 1000000 41000000 (wrap64 (100000000 - 0))) = false.
Proof.
  split; [vm_compute; reflexivity |].
  apply (steady_readings_give_no_negative_percentage 1000000 41000000 0 100000000);
    unfold int64_max; lia.
Defined.

(** X11. A pod whose usage file cannot be read in either capture is
    reported with the percentage of a pod whose usage has not changed,
    whatever that usage is: the two sentinels cancel. *)
Theorem unreadable_pod_is_reported_as_idle w name uid usage :
  (cat w 0 (kubepods ++ uid ++ "/cpuacct.usage")).2 = false →
  (cat w 1 (kubepods ++ uid ++ "/cpuacct.usage")).2 = false →
  getPodCPUUtil w 0 uid = -1 ∧ getPodCPUUtil w 1 uid = -1 ∧
  utilization w (name, uid) =
    " " ++ name ++ ":" ++
    fmt_f.Sprintf_f (percentage usage usage (wrap64 (now w 1 - now w 0))).
Proof.
  intros H0 H1.
  assert (Hread : ∀ k, (cat w k (kubepods ++ uid ++ "/cpuacct.usage")).2 = false →
                       getPodCPUUtil w k uid = -1).
  { intros k Hk. unfold getPodCPUUtil, getOSFile.
    destruct (cat w k _) as [out ok]. simpl in Hk. by subst ok. }
  split; [by apply Hread |]. split; [by apply Hread |].
  unfold utilization. simpl. rewrite (Hread _ H0), (Hread _ H1).
  unfold percentage. by rewrite !Z.sub_diag.
Qed.

Lemma unreadable_pod_is_reported_as_idle_witness :
  utilization (reading (λ _ _, (EmptyString, false))) ("a", "ua") = " a:0.000000".
Proof.
  destruct (unreadable_pod_is_reported_as_idle
              (reading (λ _ _, (EmptyString, false))) "a" "ua" 0 eq_refl eq_refl)
    as (_ & _ & ->).
  vm_compute. reflexivity.
Defined.

(** ** Batches that succeed *)

Lemma to_int64_fits share : in_int64 (float64.to_int64 share) = true.
Proof.
  destruct share as [s | s | | s m e]; try reflexivity.
  unfold float64.to_int64.
  destruct (in_int64 (float64.trunc (S754_finite s m e))) eqn:Hfit;
    [exact Hfit | reflexivity].
Qed.

(** X12. When the payload of a batch command parses and the helper
    succeeds on every entry, the response is [Success] and the helper has
    run exactly once for every pod name of the payload, with the value of
    the last entry of that name. *)
Theorem successful_batch_writes_every_pod_once ParseFloat w podUIDs lbWeights msg file :
  range_complete w →
  batchCommand msg file →
  (parsePodShares ParseFloat msg).2 = true →
  (∀ name share, (parsePodShares ParseFloat msg).1 !! name = Some share →
                 writetofile w share (cgroupFile podUIDs name file) = true) →
  let o := dispatch ParseFloat w podUIDs lbWeights msg in
  out_response o = "Success" ∧
  out_execs o ≡ₚ runOf podUIDs file true <$> map_to_list (parsePodShares ParseFloat msg).1 ∧
  ∀ name, (parsePodShares ParseFloat msg).1 !! name =
          lastValue name (binding (printShare ParseFloat) <$> payload msg).
Proof.
  intros Hrange Hbatch Hparse Hok o. subst o.
  rewrite (dispatch_batch _ _ _ _ _ _ Hbatch), Hparse. simpl.
  rewrite write_loop_all_ok.
  - simpl. split; [reflexivity |]. split; [by rewrite (Hrange 0%nat) |].
    by apply parsePodShares_true.
  - apply Forall_forall. intros [name share] Hin.
    rewrite (Hrange 0%nat) in Hin. apply elem_of_map_to_list in Hin.
    by apply Hok.
Qed.

Lemma successful_batch_writes_every_pod_once_witness :
  let o := dispatch ParseFloat_plain quiet twoPods EmptyString
             "applyCPUQuotas a:1 b:2 a:3" in
  out_response o = "Success" ∧
  out_execs o ≡ₚ [runOf twoPods "/cpu.cfs_quota_us" true ("a", "3");
                  runOf twoPods "/cpu.cfs_quota_us" true ("b", "2")].
Proof.
  intros o.
  destruct (successful_batch_writes_every_pod_once ParseFloat_plain quiet twoPods
              EmptyString "applyCPUQuotas a:1 b:2 a:3" "/cpu.cfs_quota_us")
    as (Hresponse & Hruns & _).
  - intros n m. reflexivity.
  - right. split; reflexivity.
  - vm_compute. reflexivity.
  - reflexivity.
  - split; [exact Hresponse |]. etransitivity; [exact Hruns |].
    vm_compute. reflexivity.
Defined.

(** X13. Every run of the helper that a batch command makes writes, into
    the file of the pod of some entry of the payload ([cpu.shares] for
    [applyCPUShares], [cpu.cfs_quota_us] for [applyCPUQuotas]), the decimal
    integer [int64(x)] of the float [x] the entry parses to, and this
    integer always lies in the range of [int64]. *)
Theorem batch_runs_write_int64_decimals ParseFloat w podUIDs lbWeights msg file run :
  range_complete w →
  batchCommand msg file →
  run ∈ out_execs (dispatch ParseFloat w podUIDs lbWeights msg) →
  ∃ entry share,
    entry ∈ payload msg ∧ twoFields entry ∧
    ParseFloat (fields entry).2 = Some share ∧
    exec_file run = cgroupFile podUIDs (fields entry).1 file ∧
    exec_value run = fmt.Sprintf_d (float64.to_int64 share) ∧
    int64_min ≤ float64.to_int64 share ≤ int64_max.
Proof.
  intros Hrange Hbatch.
  rewrite (dispatch_batch _ _ _ _ _ _ Hbatch). simpl.
  destruct ((parsePodShares ParseFloat msg).2) eqn:Hparse;
    [| intros Hempty; by apply elem_of_nil in Hempty].
  destruct (parsePodShares_true _ _ Hparse) as [Hall Hlook].
  intros Hrun. apply write_loop_runs in Hrun as ([n v] & Hin & Hvalue & Hfile).
  simpl in Hvalue, Hfile.
  rewrite (Hrange 0%nat) in Hin. apply elem_of_map_to_list in Hin.
  rewrite Hlook in Hin. apply lastValue_elem in Hin.
  apply list_elem_of_fmap in Hin as (entry & Hbind & Hentry).
  rewrite Forall_forall in Hall.
  assert (Hconv := Hall entry Hentry).
  apply converted_printShare in Hconv as [Htwo [share Hshare]].
  unfold binding, printShare in Hbind. rewrite Hshare in Hbind. simpl in Hbind.
  injection Hbind as -> ->.
  exists entry, share. repeat split; try assumption.
  - assert (Hfit := to_int64_fits share). unfold in_int64 in Hfit.
    apply andb_true_iff in Hfit as [Hlow _]. by apply Z.leb_le.
  - assert (Hfit := to_int64_fits share). unfold in_int64 in Hfit.
    apply andb_true_iff in Hfit as [_ Hhigh]. by apply Z.leb_le.
Qed.

Lemma batch_runs_write_int64_decimals_witness :
  let run := {| exec_value := "-1"; exec_file := kubepods ++ "ub/cpu.cfs_quota_us";
                exec_ok := true |} in
  run ∈ out_execs (dispatch ParseFloat_plain quiet twoPods EmptyString
                     "applyCPUQuotas a:150000 b:-1") ∧
  ∃ entry share,
    entry ∈ payload "applyCPUQuotas a:150000 b:-1" ∧
    ParseFloat_plain (fields entry).2 = Some share ∧
    exec_value run = fmt.Sprintf_d (float64.to_int64 share) ∧
    int64_min ≤ float64.to_int64 share ≤ int64_max.
Proof.
  intros run.
  assert (Hrun : run ∈ out_execs (dispatch ParseFloat_plain quiet twoPods EmptyString
                                    "applyCPUQuotas a:150000 b:-1")).
  { apply list_elem_of_In. vm_compute. right. left. reflexivity. }
  split; [exact Hrun |].
  destruct (batch_runs_write_int64_decimals ParseFloat_plain quiet twoPods EmptyString
              "applyCPUQuotas a:150000 b:-1" "/cpu.cfs_quota_us" run)
    as (entry & share & Hin & _ & Hparse & _ & Hvalue & Hfit).
  - intros n m. reflexivity.
  - right. split; reflexivity.
  - exact Hrun.
  - exists entry, share. repeat split; try assumption; apply Hfit.
Defined.

(** ** The parser of weights *)

Lemma parse_loops_agree ParseFloat entries :
  ∀ acc,
    parsePodShares_loop ParseFloat
      ((λ share, fmt.Sprintf_d (float64.to_int64 share)) <$> acc) entries =
    ((λ share, fmt.Sprintf_d (float64.to_int64 share)) <$>
       (parseLBWeights_loop ParseFloat acc entries).1,
     (parseLBWeights_loop ParseFloat acc entries).2).
Proof.
  induction entries as [| entry rest IH]; intros acc; simpl; [reflexivity |].
  destruct (strings.Split entry ":") as [| name [| text [| x l]]]; try reflexivity.
  destruct (ParseFloat text) as [share |]; [| reflexivity].
  by rewrite <- IH, fmap_insert.
Qed.

(** X14. [parseLBWeights] accepts exactly the messages [parsePodShares]
    accepts, and the map of [parsePodShares] is the map of
    [parseLBWeights] with every share converted to [int64] and printed. *)
Theorem parsePodShares_prints_parseLBWeights ParseFloat msg :
  parsePodShares ParseFloat msg =
    ((λ share, fmt.Sprintf_d (float64.to_int64 share)) <$> (parseLBWeights ParseFloat msg).1,
     (parseLBWeights ParseFloat msg).2).
Proof.
  unfold parsePodShares, parseLBWeights.
  rewrite <- parse_loops_agree. by rewrite fmap_empty.
Qed.

(** ** The headers of the weights endpoint *)

(** X15. The handler of the weights endpoint sets [Connection: close] in
    its header map only after [WriteHeader] has taken the map, and
    [http.Error] sets its two headers later still: the map holds
    [Connection: close], but nothing of the map is in what [WriteHeader]
    took for the response.  A [Connection] header in the response can
    only be one that net/http adds by itself. *)
Theorem connection_close_is_set_too_late lbWeights' r :
  http.header (listenForReqsFromLB lbWeights' r) !! "Connection" = Some "close" ∧
  http.frozenHeader (listenForReqsFromLB lbWeights' r) = ∅.
Proof.
  split.
  - unfold listenForReqsFromLB. destruct (http.Body r) as [data []]; simpl.
    + unfold http.Write. simpl. by destruct (String.eqb (http.Method r) "HEAD").
    + unfold http.Error, http.Write. simpl.
      by destruct (String.eqb (http.Method r) "HEAD").
  - apply listenForReqsFromLB_frozenHeader.
Qed.

(** ** The connections of the agent *)

(** X16. The events of the other connections and the requests to the
    weights endpoint leave a connection as it is: its session map, its
    pending response and what it has sent are those from before. *)
Theorem connections_are_separate ParseFloat ServeMux events :
  ∀ a a' c,
    run ParseFloat ServeMux a events = Some a' →
    Forall (λ e, connOf e ≠ Some c) events →
    conns a' !! c = conns a !! c.
Proof.
  induction events as [| e events IH]; intros a a' c Hrun Hothers; simpl in Hrun.
  - by injection Hrun as <-.
  - destruct (step ParseFloat ServeMux a e) as [a1 |] eqn:Hstep; [| discriminate].
    inversion Hothers as [| ? ? He Hrest]; subst.
    rewrite (IH _ _ _ Hrun Hrest).
    by apply (step_other_connection ParseFloat ServeMux a e).
Qed.

Lemma connections_are_separate_witness :
  ∃ a',
    run ParseFloat_plain ServeMux_plain oneClient
      [Accept 1; Recv 1 "updatePods a:ua"; Run 1 "updatePods a:ua" quiet;
       Get anyRequest; Send 1] = Some a' ∧
    conns a' !! 0%nat = conns oneClient !! 0%nat.
Proof.
  eexists. split; [vm_compute; reflexivity |].
  match goal with
  | |- conns ?a' !! _ = _ =>
      apply (connections_are_separate ParseFloat_plain ServeMux_plain
               [Accept 1; Recv 1 "updatePods a:ua"; Run 1 "updatePods a:ua" quiet;
                Get anyRequest; Send 1]
               oneClient a')
  end.
  - vm_compute. reflexivity.
  - repeat constructor; discriminate.
Defined.

Lemma step_of_connection ParseFloat ServeMux a e a' c k :
  step ParseFloat ServeMux a e = Some a' →
  conns a !! c = Some k →
  ∃ k', conns a' !! c = Some k' ∧ conn_sent k `prefix_of` conn_sent k' ∧
        (conn_closed k = true → k' = k).
Proof.
  intros Hstep Hk.
  destruct (decide (connOf e = Some c)) as [Hc | Hc].
  - destruct e as [c0 | c0 msg | c0 msg w | c0 | c0 | r]; simpl in Hc, Hstep;
      try discriminate; injection Hc as ->; rewrite Hk in Hstep; try discriminate.
    + unfold idle in Hstep. destruct (conn_closed k) eqn:Hclosed; [discriminate |].
      simpl in Hstep. destruct (conn_read k); [discriminate |].
      destruct (conn_pending k); [discriminate |].
      injection Hstep as <-. simpl. rewrite lookup_insert_eq.
      eexists. split; [reflexivity |]. split; [done | discriminate].
    + destruct (conn_read k) as [msgRead |]; [| discriminate].
      destruct (conn_closed k) eqn:Hclosed; [discriminate |]. simpl in Hstep.
      destruct (String.eqb msgRead msg); [| discriminate].
      injection Hstep as <-. simpl. rewrite lookup_insert_eq.
      eexists. split; [reflexivity |]. split; [done | discriminate].
    + destruct (conn_pending k); [| discriminate].
      destruct (conn_closed k) eqn:Hclosed; [discriminate |].
      injection Hstep as <-. simpl. rewrite lookup_insert_eq.
      eexists. split; [reflexivity |]. split; [by apply prefix_app_r | discriminate].
    + unfold idle in Hstep. destruct (conn_closed k) eqn:Hclosed; [discriminate |].
      simpl in Hstep. destruct (conn_read k); [discriminate |].
      destruct (conn_pending k); [discriminate |].
      injection Hstep as <-. simpl. rewrite lookup_insert_eq.
      eexists. split; [reflexivity |]. split; [done | discriminate].
  - exists k. by rewrite (step_other_connection ParseFloat ServeMux a e a' c Hstep Hc).
Qed.

(** X17. Along every execution, what a connection has sent only grows at
    its end, and a connection that is closed stays exactly as it is: it
    receives nothing, sends nothing and its session map is not touched. *)
Theorem closed_connection_is_left_alone ParseFloat ServeMux events :
  ∀ a a' c k,
    run ParseFloat ServeMux a events = Some a' →
    conns a !! c = Some k →
    ∃ k', conns a' !! c = Some k' ∧ conn_sent k `prefix_of` conn_sent k' ∧
          (conn_closed k = true → k' = k).
Proof.
  induction events as [| e events IH]; intros a a' c k Hrun Hk; simpl in Hrun.
  - injection Hrun as <-. by exists k.
  - destruct (step ParseFloat ServeMux a e) as [a1 |] eqn:Hstep; [| discriminate].
    destruct (step_of_connection _ _ _ _ _ _ _ Hstep Hk) as (k1 & Hk1 & Hpre1 & Hclosed1).
    destruct (IH _ _ _ _ Hrun Hk1) as (k' & Hk' & Hpre & Hclosed).
    exists k'. split; [exact Hk' |]. split; [by etransitivity |].
    intros Hc. specialize (Hclosed1 Hc). subst k1. by apply Hclosed.
Qed.

(** A connection that has sent one response and was then closed, and an
    execution that goes on around it. *)
Lemma closed_connection_is_left_alone_witness :
  ∃ a k a',
    run ParseFloat_plain ServeMux_plain oneClient
      [Recv 0 "ping"; Run 0 "ping" quiet; Send 0; ReadFail 0] = Some a ∧
    conns a !! 0%nat = Some k ∧ conn_closed k = true ∧
    run ParseFloat_plain ServeMux_plain a
      [Get anyRequest; Accept 1; Recv 1 "applyLBWeights a:50";
       Run 1 "applyLBWeights a:50" quiet; Send 1; Get anyRequest] = Some a' ∧
    conns a' !! 0%nat = Some k ∧ conn_sent k = ["Unknown message type"].
Proof.
  pose (a := default boot
               (run ParseFloat_plain ServeMux_plain oneClient
                  [Recv 0 "ping"; Run 0 "ping" quiet; Send 0; ReadFail 0])).
  pose (k := {| conn_podUIDs := ∅; conn_read := None; conn_pending := None;
                conn_sent := ["Unknown message type"]; conn_closed := true |}).
  pose (a' := default boot
                (run ParseFloat_plain ServeMux_plain a
                   [Get anyRequest; Accept 1; Recv 1 "applyLBWeights a:50";
                    Run 1 "applyLBWeights a:50" quiet; Send 1; Get anyRequest])).
  assert (Ha : run ParseFloat_plain ServeMux_plain oneClient
                 [Recv 0 "ping"; Run 0 "ping" quiet; Send 0; ReadFail 0] = Some a)
    by (vm_compute; reflexivity).
  assert (Hk : conns a !! 0%nat = Some k) by (vm_compute; reflexivity).
  assert (Hclosed : conn_closed k = true) by reflexivity.
  assert (Ha' : run ParseFloat_plain ServeMux_plain a
                  [Get anyRequest; Accept 1; Recv 1 "applyLBWeights a:50";
                   Run 1 "applyLBWeights a:50" quiet; Send 1; Get anyRequest] = Some a')
    by (vm_compute; reflexivity).
  exists a, k, a'.
  destruct (closed_connection_is_left_alone ParseFloat_plain ServeMux_plain _ a a' 0%nat k
              Ha' Hk) as (k' & Hk' & _ & Hsame).
  rewrite (Hsame Hclosed) in Hk'.
  split; [exact Ha |]. split; [exact Hk |]. split; [exact Hclosed |].
  split; [exact Ha' |]. split; [exact Hk' | reflexivity].
Defined.

(** X18. A connection that acts alone (no other connection receives a
    message in between) takes the agent through exactly what the loop of
    [processClient] computes from the same reads: the same session map,
    weights, helper runs, responses and final state of the connection;
    and it serves no request. *)
Theorem lone_connection_runs_the_loop ParseFloat ServeMux reads :
  ∀ a c k,
    conns a !! c = Some k → idle k = true →
    ∃ a' k',
      run ParseFloat ServeMux a (eventsOf c reads) = Some a' ∧
      conns a' !! c = Some k' ∧ conn_pending k' = None ∧
      sessionOf a' k' = processClient_loop ParseFloat reads (sessionOf a k) ∧
      served a' = served a.
Proof.
  induction reads as [| [msg w |] rest IH]; intros a c k Hk Hidle.
  - exists a, k. simpl. repeat split; try done.
    unfold idle in Hidle. by destruct (conn_closed k), (conn_read k), (conn_pending k).
  - simpl. rewrite Hk, Hidle. simpl. rewrite lookup_insert_eq. simpl.
    rewrite String.eqb_refl. simpl. rewrite lookup_insert_eq. simpl.
    set (o := dispatch ParseFloat w (conn_podUIDs k) (lbWeights a) msg).
    match goal with
    | |- ∃ a' k', run _ _ ?a2 _ = _ ∧ _ =>
        destruct (IH a2 c {| conn_podUIDs := out_podUIDs o; conn_read := None;
                             conn_pending := None;
                             conn_sent := conn_sent k ++ [out_response o];
                             conn_closed := false |})
          as (a' & k' & Hrun & Hk' & Hpending & Hsession & Hserved)
    end.
    + simpl. apply lookup_insert_eq.
    + reflexivity.
    + exists a', k'. repeat split; assumption.
  - simpl. rewrite Hk, Hidle. eexists _, _. split; [reflexivity |]. simpl.
    rewrite lookup_insert_eq. repeat split.
Qed.

Lemma lone_connection_runs_the_loop_witness :
  ∃ a' k',
    run ParseFloat_plain ServeMux_plain oneClient
      (eventsOf 0 [ReadMsg "updatePods a:ua" quiet; ReadMsg "applyCPUShares a:2" quiet;
                   ReadError]) = Some a' ∧
    conns a' !! 0%nat = Some k' ∧
    sessionOf a' k' =
      processClient ParseFloat_plain
        [ReadMsg "updatePods a:ua" quiet; ReadMsg "applyCPUShares a:2" quiet; ReadError]
        EmptyString.
Proof.
  destruct (lone_connection_runs_the_loop ParseFloat_plain ServeMux_plain
              [ReadMsg "updatePods a:ua" quiet; ReadMsg "applyCPUShares a:2" quiet;
               ReadError] oneClient 0%nat _ eq_refl eq_refl)
    as (a' & k' & Hrun & Hk' & _ & Hsession & _).
  exists a', k'. split; [exact Hrun |]. split; [exact Hk' | exact Hsession].
Defined.

(** ** The weights over an execution *)

Lemma step_stores ParseFloat ServeMux a e a' :
  step ParseFloat ServeMux a e = Some a' →
  lbWeights a' = default (lbWeights a) (last (stored [e])).
Proof.
  destruct e as [c | c msg | c msg w | c | c | r]; simpl; intros Hstep.
  - destruct (conns a !! c); [discriminate |]. by injection Hstep as <-.
  - destruct (conns a !! c) as [k |]; [| discriminate].
    destruct (idle k); [| discriminate]. by injection Hstep as <-.
  - destruct (conns a !! c) as [k |]; [| discriminate].
    destruct (conn_read k); [| discriminate].
    destruct (negb (conn_closed k) && _); [| discriminate].
    injection Hstep as <-. simpl.
    destruct (String.eqb_spec (msgTypeOf msg) "applyLBWeights") as [Htype | Htype].
    + by rewrite (dispatch_applyLBWeights _ _ _ _ _ Htype).
    + simpl. apply dispatch_weights. by apply String.eqb_neq.
  - destruct (conns a !! c) as [k |]; [| discriminate].
    destruct (conn_pending k); [| discriminate].
    destruct (conn_closed k); [discriminate |]. by injection Hstep as <-.
  - destruct (conns a !! c) as [k |]; [| discriminate].
    destruct (idle k); [| discriminate]. by injection Hstep as <-.
  - by injection Hstep as <-.
Qed.

(** X19. After any execution the weights the agent holds are the
    [applyLBWeights] message that was stored last, on whichever
    connection, taken whole; this need not be the one that was read last,
    since the handlers of two connections may store in the other order
    than they read.  When none was stored the weights are what they were,
    which at the start of the agent is the empty string. *)
Theorem weights_are_the_last_message_stored ParseFloat ServeMux events :
  ∀ a a',
    run ParseFloat ServeMux a events = Some a' →
    lbWeights a' = default (lbWeights a) (last (stored events)).
Proof.
  induction events as [| e events IH]; intros a a' Hrun; simpl in Hrun.
  - by injection Hrun as <-.
  - destruct (step ParseFloat ServeMux a e) as [a1 |] eqn:Hstep; [| discriminate].
    rewrite (IH _ _ Hrun), (step_stores _ _ _ _ _ Hstep).
    change (e :: events) with ([e] ++ events)%list.
    unfold stored at 3. rewrite omap_app. fold (stored [e]) (stored events).
    rewrite last_app. by destruct (last (stored events)).
Qed.

(** Two connections read [a:50] and then [a:70], and store them in the
    other order: the agent holds [a:50]. *)
Lemma weights_are_the_last_message_stored_witness :
  ∃ a',
    run ParseFloat_plain ServeMux_plain boot
      [Accept 0; Accept 1; Recv 0 "applyLBWeights a:50"; Recv 1 "applyLBWeights a:70";
       Run 1 "applyLBWeights a:70" quiet; Send 1; Recv 1 "ping";
       Run 0 "applyLBWeights a:50" quiet; Run 1 "ping" quiet; Send 0] = Some a' ∧
    lbWeights a' = "applyLBWeights a:50".
Proof.
  eexists. split; [vm_compute; reflexivity |].
  match goal with
  | |- lbWeights ?a' = _ =>
      rewrite (weights_are_the_last_message_stored ParseFloat_plain ServeMux_plain
                 [Accept 0; Accept 1; Recv 0 "applyLBWeights a:50";
                  Recv 1 "applyLBWeights a:70";
                  Run 1 "applyLBWeights a:70" quiet; Send 1; Recv 1 "ping";
                  Run 0 "applyLBWeights a:50" quiet; Run 1 "ping" quiet; Send 0] boot a')
  end.
  - reflexivity.
  - vm_compute. reflexivity.
Defined.

(** ** Reading a usage file *)

Lemma digits_from_acc d :
  ∀ p, strconv.digits_from (Z.pos p) (NilEmpty.string_of_uint d) =
       Some (Z.pos (Pos.of_uint_acc d p)).
Proof.
  induction d as [| d IH | d IH | d IH | d IH | d IH | d IH | d IH | d IH | d IH | d IH];
    intros p; [reflexivity | ..];
    cbn [NilEmpty.string_of_uint Pos.of_uint_acc strconv.digits_from];
    match goal with
    | |- context [strconv.digit_of ?c] =>
        let v := eval vm_compute in (strconv.digit_of c) in
        change (strconv.digit_of c) with v
    end;
    cbv iota beta; rewrite <- IH; f_equal; lia.
Qed.

Lemma digits_from_uint d :
  strconv.digits_from 0 (NilEmpty.string_of_uint d) = Some (Z.of_N (Pos.of_uint d)).
Proof.
  induction d as [| d IH | d IH | d IH | d IH | d IH | d IH | d IH | d IH | d IH | d IH];
    [reflexivity | exact IH | ..];
    cbn [NilEmpty.string_of_uint Pos.of_uint strconv.digits_from];
    match goal with
    | |- context [strconv.digit_of ?c] =>
        let v := eval vm_compute in (strconv.digit_of c) in
        change (strconv.digit_of c) with v
    end;
    cbv iota beta; apply digits_from_acc.
Qed.

(** The decimal digits of a positive number start with a digit and hold no
    newline. *)
Lemma uint_digits d :
  free "010" (NilEmpty.string_of_uint d) ∧
  (d ≠ Decimal.Nil →
   ∃ c rest, NilEmpty.string_of_uint d = String c rest ∧
             Ascii.eqb c "+" = false ∧ Ascii.eqb c "-" = false).
Proof.
  unfold free.
  induction d as [| d [IH _] | d [IH _] | d [IH _] | d [IH _] | d [IH _] | d [IH _]
                  | d [IH _] | d [IH _] | d [IH _] | d [IH _]];
    (split; [try reflexivity; cbn [NilEmpty.string_of_uint strings.inCutset];
             rewrite IH; reflexivity
            | intros Hd; try congruence; eexists _, _; repeat split]).
Qed.

Lemma ParseInt_positive p :
  strconv.digits (NilEmpty.string_of_uint (Pos.to_uint p)) = Some (Z.pos p) ∧
  Pos.to_uint p ≠ Decimal.Nil.
Proof.
  assert (Hnil : Pos.to_uint p ≠ Decimal.Nil).
  { intros Hd. assert (Hof := DecimalPos.Unsigned.of_to p). rewrite Hd in Hof.
    discriminate. }
  split; [| exact Hnil].
  destruct (uint_digits (Pos.to_uint p)) as [_ Hhead].
  destruct (Hhead Hnil) as (c & rest & Hs & _).
  unfold strconv.digits.
  assert (Hvalue := digits_from_uint (Pos.to_uint p)).
  rewrite DecimalPos.Unsigned.of_to in Hvalue. simpl in Hvalue.
  rewrite Hs in *. exact Hvalue.
Qed.

Lemma Sprintf_d_positive p :
  fmt.Sprintf_d (Z.pos p) = NilEmpty.string_of_uint (Pos.to_uint p) ∧
  fmt.Sprintf_d (Z.neg p) = String "-" (NilEmpty.string_of_uint (Pos.to_uint p)).
Proof.
  destruct (ParseInt_positive p) as [_ Hnil].
  unfold fmt.Sprintf_d. simpl. unfold NilZero.string_of_uint.
  by destruct (Pos.to_uint p).
Qed.

Lemma ParseInt_Sprintf_d z :
  in_int64 z = true → strconv.ParseInt (fmt.Sprintf_d z) = Some z.
Proof.
  unfold in_int64, int64_min, int64_max. intros [Hlow Hhigh]%andb_true_iff.
  apply Z.leb_le in Hlow, Hhigh.
  destruct z as [| p | p]; [reflexivity | |].
  - destruct (Sprintf_d_positive p) as [-> _].
    destruct (ParseInt_positive p) as [Hdigits Hnil].
    destruct (uint_digits (Pos.to_uint p)) as [_ Hhead].
    destruct (Hhead Hnil) as (c & rest & Hs & Hplus & Hminus).
    rewrite Hs in *. unfold strconv.ParseInt. rewrite Hplus, Hminus, Hdigits.
    simpl negb. cbv iota beta.
    destruct (Z.leb_spec (2 ^ 63) (Z.pos p)) as [Hbig | _]; [lia | reflexivity].
  - destruct (Sprintf_d_positive p) as [_ ->].
    destruct (ParseInt_positive p) as [Hdigits _].
    unfold strconv.ParseInt.
    change (Ascii.eqb "-" "+") with false. change (Ascii.eqb "-" "-") with true.
    cbv iota beta. rewrite Hdigits. simpl negb. cbv iota beta.
    destruct (Z.ltb_spec (2 ^ 63) (Z.pos p)) as [Hbig | _]; [lia | reflexivity].
Qed.

Lemma Sprintf_d_free z : free "010" (fmt.Sprintf_d z).
Proof.
  destruct z as [| p | p]; [reflexivity | |].
  - destruct (Sprintf_d_positive p) as [-> _]. apply uint_digits.
  - destruct (Sprintf_d_positive p) as [_ ->].
    unfold free. cbn [strings.inCutset].
    destruct (uint_digits (Pos.to_uint p)) as [Hfree _]. unfold free in Hfree.
    by rewrite Hfree.
Qed.

Lemma inCutset_newline c : strings.inCutset c newline = Ascii.eqb c "010".
Proof. unfold newline. simpl. apply orb_false_r. Qed.

Lemma TrimRight_newline s :
  free "010" s → strings.TrimRight (s ++ newline) newline = s.
Proof.
  unfold free. induction s as [| c s IH]; [reflexivity |].
  cbn [strings.inCutset]. intros [Hc Hs]%orb_false_iff.
  change (String c s ++ newline) with (String c (s ++ newline)).
  cbn [strings.TrimRight]. rewrite (IH Hs), inCutset_newline.
  rewrite Ascii.eqb_sym in Hc. rewrite Hc. by destruct s.
Qed.

Lemma Trim_newline s :
  free "010" s → strings.Trim (s ++ newline) newline = s.
Proof.
  intros Hfree. unfold strings.Trim.
  destruct s as [| c s].
  - reflexivity.
  - change (String c s ++ newline) with (String c (s ++ newline)).
    cbn [strings.TrimLeft]. rewrite inCutset_newline.
    unfold free in Hfree. cbn [strings.inCutset] in Hfree.
    apply orb_false_iff in Hfree as [Hc Hs].
    rewrite Ascii.eqb_sym in Hc. rewrite Hc.
    apply (TrimRight_newline (String c s)). unfold free. cbn [strings.inCutset].
    rewrite Ascii.eqb_sym in Hc. by rewrite Hc, Hs.
Qed.

(** X20. When [cat] succeeds on the usage file of a pod and the file holds
    an [int64] in decimal followed by a newline, as the kernel writes it,
    [getPodCPUUtil] returns exactly that number. *)
Theorem usage_file_is_read_back w k uid usage :
  int64_min ≤ usage ≤ int64_max →
  cat w k (kubepods ++ uid ++ "/cpuacct.usage") = (fmt.Sprintf_d usage ++ newline, true) →
  getPodCPUUtil w k uid = usage.
Proof.
  intros [Hlow Hhigh] Hcat. unfold getPodCPUUtil, getOSFile. rewrite Hcat. simpl negb.
  cbv iota beta. rewrite (Trim_newline _ (Sprintf_d_free usage)).
  rewrite ParseInt_Sprintf_d; [reflexivity |].
  unfold in_int64. apply andb_true_iff. split; by apply Z.leb_le.
Qed.

Lemma usage_file_is_read_back_witness :
  getPodCPUUtil (reading secondReadFails) 1 "ua" = 41000000.
Proof.
  apply usage_file_is_read_back.
  - vm_compute. split; discriminate.
  - vm_compute. reflexivity.
Defined.

(** ** No pods *)

(** X21. With an empty session map, as it is before the first
    [updatePods], the response to [getCPUUtilizations] is [utils:] and
    nothing more. *)
Theorem no_pods_no_utilizations w :
  range_complete w → getCPUUtilizations w ∅ = "utils:".
Proof.
  intros Hrange. rewrite (getCPUUtilizations_wire _ _ Hrange).
  assert (Hnone : range_order w 2 ∅ = []).
  { apply Permutation_nil_r. by rewrite (Hrange 2%nat), map_to_list_empty. }
  by rewrite Hnone.
Qed.

Lemma no_pods_no_utilizations_witness :
  range_complete (reading secondReadFails) ∧
  getCPUUtilizations (reading secondReadFails) ∅ = "utils:".
Proof.
  assert (Hrange : range_complete (reading secondReadFails))
    by (intros n m; reflexivity).
  split; [exact Hrange | by apply no_pods_no_utilizations].
Defined.

(** ** How far the written share is from the floor *)

(** X22. The integer [int64(x)] that [parsePodShares] prints for a finite
    share [x] whose integer part fits [int64] is never below the floor of
    [x] and at most one above it. *)
Theorem written_share_is_floor_or_one_above share :
  float64.is_finite share = true →
  in_int64 (float64.trunc share) = true →
  float64.floor share ≤ float64.to_int64 share ≤ float64.floor share + 1.
Proof.
  intros Hfinite Hfit. rewrite (to_int64_trunc _ Hfinite Hfit). clear Hfit.
  destruct share as [s | s | | s m e]; try discriminate; [simpl; lia |].
  unfold float64.floor, float64.trunc.
  destruct (Z.leb_spec 0 e) as [He | He], s.
  - change (Z.neg m) with (- Z.pos m). rewrite Z.mul_opp_l. lia.
  - lia.
  - assert (Hpow : 0 < 2 ^ (- e)) by (apply Z.pow_pos_nonneg; lia).
    change (Z.neg m) with (- Z.pos m).
    destruct (Z.eq_dec (Z.pos m mod 2 ^ (- e)) 0) as [Hz | Hnz].
    + rewrite Z.div_opp_l_z by (first [exact Hz | lia]). lia.
    + rewrite Z.div_opp_l_nz by (first [exact Hnz | lia]). lia.
  - lia.
Qed.

Lemma written_share_is_floor_or_one_above_witness :
  ∃ share,
    ParseFloat_plain "-2.5" = Some share ∧
    float64.floor share = -3 ∧ float64.to_int64 share = -2 ∧
    float64.floor share ≤ float64.to_int64 share ≤ float64.floor share + 1.
Proof.
  eexists. split; [vm_compute; reflexivity |].
  split; [vm_compute; reflexivity |]. split; [vm_compute; reflexivity |].
  apply written_share_is_floor_or_one_above; vm_compute; reflexivity.
Defined.
